(** * TREC Deep Learning adapter ([src/datasets/trecdl.py])

    A shallow embedding of [TRECDLAdapter] and proofs of its contract.

    The module defines the class [TRECDLAdapter] twice; the second
    definition (with [YEARS], [MODES], the judged-query [load], the three
    [iter_*] generators and [trec_df]) rebinds the name, so it is the one a
    caller gets and the one embedded here.

    Conventions of the embedding:
    - registry records are Rocq records; a field the code reads with
      [getattr(x, name, default)] is an [option] ([None] = attribute absent);
    - a Python call that can raise returns in the monad [M]; the type [exn]
      stands for instances of Python's [Exception];
    - a registry iterator is a finite [stream]: items, then either
      exhaustion or an exception raised by [next];
    - dicts are [gmap], Python sets are [gset];
    - logging has no effect on any returned value and is left out. *)

From stdpp Require Import base option list strings pretty gmap fin_maps sets.

Open Scope string_scope.
Open Scope list_scope.

(** ** Exceptions and the result monad *)

Inductive exn : Type :=
  | KeyError (msg : string)
  | ValueError (msg : string)
  | AttributeError (msg : string)
  | TypeError (msg : string)
  | OSError (msg : string)
  | RuntimeError (msg : string).

Inductive M (A : Type) : Type :=
  | Ok (a : A)
  | Raise (e : exn).
Arguments Ok {A} a.
Arguments Raise {A} e.

#[global] Instance M_ret : MRet M := fun _ a => Ok a.
#[global] Instance M_bind : MBind M := fun _ _ f m =>
  match m with
  | Ok a => f a
  | Raise e => Raise e
  end.

(** [try: body; except Exception: return handler] *)
Definition try_except_Exception {A} (body : M A) (handler : exn → M A) : M A :=
  match body with
  | Ok a => Ok a
  | Raise e => handler e
  end.

#[global] Instance exn_eq_dec : EqDecision exn.
Proof. solve_decision. Defined.

(** The class of an exception, which is what an [except] clause tests and
    what tells one kind of error from another. *)
Definition exn_class (e : exn) : string :=
  match e with
  | KeyError _ => "KeyError"
  | ValueError _ => "ValueError"
  | AttributeError _ => "AttributeError"
  | TypeError _ => "TypeError"
  | OSError _ => "OSError"
  | RuntimeError _ => "RuntimeError"
  end.

(** ** Registry records *)

Record Doc := mkDoc { doc_id : string; doc_text : option string }.
Record Query := mkQuery { query_id : string; query_text : option string }.
Record Qrel := mkQrel {
  qrel_query_id : string;
  qrel_doc_id : string;
  qrel_relevance : option Z }.

#[global] Instance Doc_eq_dec : EqDecision Doc.
Proof. solve_decision. Defined.
#[global] Instance Query_eq_dec : EqDecision Query.
Proof. solve_decision. Defined.
#[global] Instance Qrel_eq_dec : EqDecision Qrel.
Proof. solve_decision. Defined.

(** ** Registry streams *)

Inductive stream (A : Type) : Type :=
  | SNil
  | SCons (x : A) (s : stream A)
  | SFail (e : exn).
Arguments SNil {A}.
Arguments SCons {A} x s.
Arguments SFail {A} e.

Fixpoint stream_of_list {A} (l : list A) : stream A :=
  match l with
  | [] => SNil
  | x :: l' => SCons x (stream_of_list l')
  end.

(** The items a stream yields before it ends or fails. *)
Fixpoint stream_items {A} (s : stream A) : list A :=
  match s with
  | SNil => []
  | SCons x s' => x :: stream_items s'
  | SFail _ => []
  end.

(** The exception, if any, that ends the stream. *)
Fixpoint stream_failure {A} (s : stream A) : option exn :=
  match s with
  | SNil => None
  | SCons _ s' => stream_failure s'
  | SFail e => Some e
  end.

(** The handle returned by [ir_datasets.load], a fixed corpus: every call of
    [docs_iter()], [queries_iter()] or [qrels_iter()] replays the
    corresponding stream. *)
Record Dataset := mkDataset {
  docs_iter : stream Doc;
  queries_iter : stream Query;
  qrels_iter : stream Qrel }.

(** ** Construction *)

Definition YEARS : list Z := [2019; 2020; 2021]%Z.
Definition MODES : list string := ["passage"; "document"].

(** The f-strings of the two configuration errors, with the class
    attributes [YEARS] and [MODES] formatted by [repr]. *)
Definition years_error_msg : string := "Supported years: [2019, 2020, 2021]".
Definition modes_error_msg : string :=
  "mode must be one of: ['passage', 'document']".

Definition dataset_id (year : Z) (mode : string) : string :=
  if bool_decide (year ∈ [2019; 2020]%Z)
  then "msmarco-" +:+ mode +:+ "/trec-dl-" +:+ pretty year
  else "msmarco-" +:+ mode +:+ "-v2/trec-dl-" +:+ pretty year.

Record TRECDLAdapter := mkAdapter {
  dataset : Dataset;
  name : string;
  year : Z;
  mode : string }.

(** [__init__], over the external [ir_datasets.load]. *)
Definition init (ir_datasets_load : string → M Dataset)
    (year : Z) (mode : string) : M TRECDLAdapter :=
  if negb (bool_decide (year ∈ YEARS)) then Raise (ValueError years_error_msg)
  else if negb (bool_decide (mode ∈ MODES)) then Raise (ValueError modes_error_msg)
  else
    let dataset_id := dataset_id year mode in
    match ir_datasets_load dataset_id with
    | Ok ds => Ok (mkAdapter ds dataset_id year mode)
    | Raise (KeyError _) =>
        Raise (ValueError ("Dataset not found in ir_datasets: " +:+ dataset_id))
    | Raise e => Raise e
    end.

(** ** Bulk load *)

(** [qrel_map.setdefault(r.query_id, []).append(r)] *)
Definition setdefault_append (qrel_map : gmap string (list Qrel)) (r : Qrel)
    : gmap string (list Qrel) :=
  <[qrel_query_id r := default [] (qrel_map !! qrel_query_id r) ++ [r]]> qrel_map.

(** [for x in s: st = body st x] *)
Fixpoint for_stream {A St} (body : St → A → St) (s : stream A) (st : St) : M St :=
  match s with
  | SNil => Ok st
  | SCons x s' => for_stream body s' (body st x)
  | SFail e => Raise e
  end.

(** [[x for x in s if cond x]] *)
Fixpoint list_comp {A} (cond : A → bool) (s : stream A) : M (list A) :=
  match s with
  | SNil => Ok []
  | SCons x s' =>
      xs ← list_comp cond s';
      mret (if cond x then x :: xs else xs)
  | SFail e => Raise e
  end.

(** Truth value of an [Optional[int]]: [None] and [0] are falsy. *)
Definition truthy (limit : option Z) : bool :=
  match limit with
  | None => false
  | Some k => negb (k =? 0)%Z
  end.

(** [l[:stop]]: a negative [stop] counts from the end, clamped at 0. *)
Definition slice_to {A} (l : list A) (stop : option Z) : list A :=
  match stop with
  | None => l
  | Some k =>
      if (k <? 0)%Z then take (Z.to_nat (Z.of_nat (length l) + k)) l
      else take (Z.to_nat k) l
  end.

Record Loaded := mkLoaded {
  docs : list Doc;
  queries : list Query;
  qrels : list Qrel }.

Definition empty_result : Loaded := mkLoaded [] [] [].

(** The body of [load] over the four iterators it opens, in the order in
    which it consumes them: the judgments (grouping pass), the queries, the
    judgments again (filtering pass) and the documents. *)
Definition load_streams (qrels_iter1 : stream Qrel) (queries_iter : stream Query)
    (qrels_iter2 : stream Qrel) (docs_iter : stream Doc) (limit : option Z)
    : M Loaded :=
  try_except_Exception
    (qrel_map ← for_stream setdefault_append qrels_iter1 ∅;
     all_queries ← list_comp
       (λ q, bool_decide (is_Some (qrel_map !! query_id q))) queries_iter;
     let all_queries :=
       if truthy limit then slice_to all_queries limit else all_queries in
     let qids : gset string := list_to_set (query_id <$> all_queries) in
     qrels ← list_comp (λ r, bool_decide (qrel_query_id r ∈ qids)) qrels_iter2;
     let docids : gset string := list_to_set (qrel_doc_id <$> qrels) in
     docs ← list_comp (λ d, bool_decide (doc_id d ∈ docids)) docs_iter;
     mret (mkLoaded docs all_queries qrels))
    (λ e, mret empty_result).

Definition load (self : TRECDLAdapter) (limit : option Z) : M Loaded :=
  load_streams (qrels_iter (dataset self)) (queries_iter (dataset self))
    (qrels_iter (dataset self)) (docs_iter (dataset self)) limit.

(** ** Lazy iterators *)

(** [limit and count >= limit] *)
Definition limit_reached (limit : option Z) (count : Z) : bool :=
  match limit with
  | None => false
  | Some k => negb (k =? 0)%Z && (k <=? count)%Z
  end.

(** The generator body shared by [iter_docs], [iter_queries] and
    [iter_qrels], started with [count = 0]: yield the item, count it, and
    break once the limit is reached. The result is the stream of yields. *)
Fixpoint iter_loop {A} (limit : option Z) (count : Z) (s : stream A) : stream A :=
  match s with
  | SNil => SNil
  | SCons x s' =>
      SCons x
        (let count := (count + 1)%Z in
         if limit_reached limit count then SNil else iter_loop limit count s')
  | SFail e => SFail e
  end.

Definition iter_docs (self : TRECDLAdapter) (limit : option Z) : stream Doc :=
  iter_loop limit 0 (docs_iter (dataset self)).

Definition iter_queries (self : TRECDLAdapter) (limit : option Z) : stream Query :=
  iter_loop limit 0 (queries_iter (dataset self)).

Definition iter_qrels (self : TRECDLAdapter) (limit : option Z) : stream Qrel :=
  iter_loop limit 0 (qrels_iter (dataset self)).

(** ** Tabular flattening *)

(** The values of the [data] dict are lists of registry records of any of
    the three classes; attribute access is by name, as in Python. *)
Inductive record : Type :=
  | RDoc (d : Doc)
  | RQuery (q : Query)
  | RQrel (r : Qrel).

(** [x.doc_id] *)
Definition attr_doc_id (x : record) : M string :=
  match x with
  | RDoc d => Ok (doc_id d)
  | RQrel r => Ok (qrel_doc_id r)
  | RQuery _ => Raise (AttributeError "doc_id")
  end.

(** [x.query_id] *)
Definition attr_query_id (x : record) : M string :=
  match x with
  | RQuery q => Ok (query_id q)
  | RQrel r => Ok (qrel_query_id r)
  | RDoc _ => Raise (AttributeError "query_id")
  end.

(** [getattr(x, "text", "")] *)
Definition getattr_text (x : record) : string :=
  match x with
  | RDoc d => default "" (doc_text d)
  | RQuery q => default "" (query_text q)
  | RQrel _ => ""
  end.

(** [getattr(x, "relevance", 0)] *)
Definition getattr_relevance (x : record) : Z :=
  match x with
  | RQrel r => default 0%Z (qrel_relevance r)
  | _ => 0%Z
  end.

(** [data[k]] *)
Definition getitem (data : gmap string (list record)) (k : string)
    : M (list record) :=
  match data !! k with
  | Some v => Ok v
  | None => Raise (KeyError k)
  end.

(** [{key(x): getattr(x, "text", "") for x in l}], filling [acc] from left
    to right, so that a later record overwrites an earlier one. *)
Fixpoint text_lookup (key : record → M string) (l : list record)
    (acc : gmap string string) : M (gmap string string) :=
  match l with
  | [] => Ok acc
  | x :: l' =>
      k ← key x;
      text_lookup key l' (<[k := getattr_text x]> acc)
  end.

(** Truth value of the result of [dict.get] on a dict of strings. *)
Definition truthy_text (t : option string) : bool :=
  match t with
  | None => false
  | Some s => negb (bool_decide (s = ""))
  end.

Definition Row : Type := string * string * string * string * Z.

Record DataFrame := mkDataFrame {
  df_columns : list string;
  df_rows : list Row }.

(** The loop over [data["qrels"]], appending to [rows]. *)
Fixpoint rows_loop (query_lookup doc_lookup : gmap string string)
    (l : list record) (rows : list Row) : M (list Row) :=
  match l with
  | [] => Ok rows
  | r :: l' =>
      qid ← attr_query_id r;
      docid ← attr_doc_id r;
      let rel := getattr_relevance r in
      let query := query_lookup !! qid in
      let passage := doc_lookup !! docid in
      rows_loop query_lookup doc_lookup l'
        (if truthy_text query && truthy_text passage
         then rows ++ [(qid, default "" query, docid, default "" passage, rel)]
         else rows)
  end.

Definition trec_df (data : gmap string (list record)) : M DataFrame :=
  if negb (forallb (λ k, bool_decide (is_Some (data !! k)))
             ["docs"; "queries"; "qrels"])
  then Raise (ValueError
    "Input must contain 'docs', 'queries', and 'qrels' keys.")
  else
    data_docs ← getitem data "docs";
    doc_lookup ← text_lookup attr_doc_id data_docs ∅;
    data_queries ← getitem data "queries";
    query_lookup ← text_lookup attr_query_id data_queries ∅;
    data_qrels ← getitem data "qrels";
    rows ← rows_loop query_lookup doc_lookup data_qrels [];
    mret (mkDataFrame ["qid"; "query"; "docid"; "passage"; "rel"] rows).

(** The dict returned by [load], as [trec_df] receives it. *)
Definition as_dict (res : Loaded) : gmap string (list record) :=
  <["qrels" := RQrel <$> qrels res]>
    (<["queries" := RQuery <$> queries res]>
       (<["docs" := RDoc <$> docs res]> ∅)).

(** ** Specification-side definitions

    These follow the wording of the adapter's contract rather than the code;
    the theorems below relate [load] and [trec_df] to them. *)

(** Registry queries whose [query_id] occurs in at least one judgment. *)
Definition judged_queries (qs : list Query) (rs : list Qrel) : list Query :=
  filter (λ q, query_id q ∈ qrel_query_id <$> rs) qs.

(** Registry judgments whose [query_id] is the id of one of [sel]. *)
Definition judgments_of (rs : list Qrel) (sel : list Query) : list Qrel :=
  filter (λ r, qrel_query_id r ∈ query_id <$> sel) rs.

(** Registry documents whose [doc_id] occurs in one of [rs]. *)
Definition documents_of (ds : list Doc) (rs : list Qrel) : list Doc :=
  filter (λ d, doc_id d ∈ qrel_doc_id <$> rs) ds.

(** The queries [load] keeps, given the judged ones. *)
Definition selected (limit : option Z) (judged : list Query) : list Query :=
  if truthy limit then slice_to judged limit else judged.

(** No orphans in any direction. *)
Definition closed (res : Loaded) : Prop :=
  (∀ q, q ∈ queries res → ∃ r, r ∈ qrels res ∧ qrel_query_id r = query_id q) ∧
  (∀ r, r ∈ qrels res → ∃ q, q ∈ queries res ∧ query_id q = qrel_query_id r) ∧
  (∀ d, d ∈ docs res → ∃ r, r ∈ qrels res ∧ qrel_doc_id r = doc_id d).

(** The records the registry holds: what each stream yields. *)
Definition registry_docs (self : TRECDLAdapter) : list Doc :=
  stream_items (docs_iter (dataset self)).
Definition registry_queries (self : TRECDLAdapter) : list Query :=
  stream_items (queries_iter (dataset self)).
Definition registry_qrels (self : TRECDLAdapter) : list Qrel :=
  stream_items (qrels_iter (dataset self)).

(** The judged queries of the adapter's registry, in registry order. *)
Definition judged (self : TRECDLAdapter) : list Query :=
  judged_queries (registry_queries self) (registry_qrels self).

(** None of the three registry streams of the adapter fails. *)
Definition streams_ok (self : TRECDLAdapter) : Prop :=
  stream_failure (qrels_iter (dataset self)) = None ∧
  stream_failure (queries_iter (dataset self)) = None ∧
  stream_failure (docs_iter (dataset self)) = None.

(** The text a mapping built from [l] holds for key [k]: that of the last
    record with this key, the empty string when it has no text. *)
Definition lookup_text {A} (key : A → string) (text : A → option string)
    (l : list A) (k : string) : option string :=
  (λ x, default "" (text x)) <$> last (filter (λ x, key x = k) l).

(** The row a judgment contributes, if any. *)
Definition spec_row (qs : list Query) (ds : list Doc) (r : Qrel) : option Row :=
  match lookup_text query_id query_text qs (qrel_query_id r),
        lookup_text doc_id doc_text ds (qrel_doc_id r) with
  | Some query, Some passage =>
      if decide (query ≠ "" ∧ passage ≠ "")
      then Some (qrel_query_id r, query, qrel_doc_id r, passage,
                 default 0%Z (qrel_relevance r))
      else None
  | _, _ => None
  end.

(** What one judgment adds to [rows], as the loop computes it. *)
Definition loop_row (query_lookup doc_lookup : gmap string string) (r : Qrel)
    : option Row :=
  let query := query_lookup !! qrel_query_id r in
  let passage := doc_lookup !! qrel_doc_id r in
  if truthy_text query && truthy_text passage
  then Some (qrel_query_id r, default "" query, qrel_doc_id r,
             default "" passage, default 0%Z (qrel_relevance r))
  else None.

Definition required_keys : list string := ["docs"; "queries"; "qrels"].

Definition malformed_input : exn :=
  ValueError "Input must contain 'docs', 'queries', and 'qrels' keys.".

(** ** Fixtures *)

Definition d1 : Doc := mkDoc "d1" (Some "x is a thing").
Definition d2 : Doc := mkDoc "d2" (Some "unjudged").
Definition d3 : Doc := mkDoc "d3" None.
Definition q1 : Query := mkQuery "q1" (Some "what is x").
Definition q2 : Query := mkQuery "q2" (Some "never judged").
Definition q3 : Query := mkQuery "q3" (Some "what is y").
Definition r11 : Qrel := mkQrel "q1" "d1" (Some 2%Z).
Definition r33 : Qrel := mkQrel "q3" "d3" None.

Definition fixture_dataset : Dataset :=
  mkDataset (stream_of_list [d1; d2; d3]) (stream_of_list [q2; q1; q3])
    (stream_of_list [r11; r33]).

Definition fixture : TRECDLAdapter :=
  mkAdapter fixture_dataset "msmarco-passage/trec-dl-2020" 2020 "passage".

(** A registry whose judgment stream breaks after the first record. *)
Definition broken_dataset : Dataset :=
  mkDataset (stream_of_list [d1; d2; d3]) (stream_of_list [q2; q1; q3])
    (SCons r11 (SFail (OSError "connection reset"))).

Definition broken : TRECDLAdapter :=
  mkAdapter broken_dataset "msmarco-passage/trec-dl-2020" 2020 "passage".

(** A registry that knows no dataset at all. *)
Definition empty_registry (dataset_id : string) : M Dataset :=
  Raise (KeyError dataset_id).

(** One query, one document, one judgment of grade 2. *)
Definition one_row_data : gmap string (list record) :=
  as_dict (mkLoaded [d1] [q1] [r11]).

(** Judgments whose document has no text, an empty text, or is not there. *)
Definition sparse_data : gmap string (list record) :=
  as_dict (mkLoaded [d1; d3; mkDoc "d4" (Some "")] [q1; q3]
             [r33; mkQrel "q1" "d4" (Some 1%Z); mkQrel "q1" "d9" (Some 1%Z);
              mkQrel "q1" "d1" None]).

(** ** The first definition of the class

    The module's first [class TRECDLAdapter] is rebound by the second one
    before anyone can use it. Its [load] takes the first [limit] records of
    each stream, without any judged-query filtering. *)

Module Shadowed.

(** [list(it)] *)
Fixpoint list_of_stream {A} (s : stream A) : M (list A) :=
  match s with
  | SNil => Ok []
  | SCons x s' => xs ← list_of_stream s'; mret (x :: xs)
  | SFail e => Raise e
  end.

(** [[x for _, x in zip(range(n), it)]]: [zip] asks [range(n)] first, so
    the stream is not touched once [n] records are taken. *)
Fixpoint zip_range {A} (n : nat) (s : stream A) : M (list A) :=
  match n with
  | 0 => Ok []
  | S n' =>
      match s with
      | SNil => Ok []
      | SCons x s' => xs ← zip_range n' s'; mret (x :: xs)
      | SFail e => Raise e
      end
  end.

(** [list(it if limit is None else [x for _, x in zip(range(limit), it)])];
    [range(limit)] is empty for [limit <= 0]. *)
Definition first_records {A} (limit : option Z) (s : stream A) : M (list A) :=
  match limit with
  | None => list_of_stream s
  | Some k => zip_range (Z.to_nat k) s
  end.

Definition load (self : TRECDLAdapter) (limit : option Z) : M Loaded :=
  try_except_Exception
    (docs ← first_records limit (docs_iter (dataset self));
     queries ← first_records limit (queries_iter (dataset self));
     qrels ← first_records limit (qrels_iter (dataset self));
     mret (mkLoaded docs queries qrels))
    (λ e, mret empty_result).

End Shadowed.

(** ** Further specification-side definitions *)

(** The first [limit] records of [l], all of them without a limit, none
    for a limit of 0 or below. *)
Definition first_n {A} (limit : option Z) (l : list A) : list A :=
  match limit with
  | None => l
  | Some k => take (Z.to_nat k) l
  end.

(** The stream does not fail, or does so only after its first [limit]
    records. *)
Definition no_failure_within {A} (limit : option Z) (s : stream A) : Prop :=
  stream_failure s = None ∨
  ∃ k, limit = Some k ∧ (Z.to_nat k ≤ length (stream_items s))%nat.

(** A registry holding exactly the records of [res]. *)
Definition dataset_of (res : Loaded) : Dataset :=
  mkDataset (stream_of_list (docs res)) (stream_of_list (queries res))
    (stream_of_list (qrels res)).

(** The adapter [self] rebound to the registry [ds]. *)
Definition with_dataset (self : TRECDLAdapter) (ds : Dataset) : TRECDLAdapter :=
  mkAdapter ds (name self) (year self) (mode self).

(** The whole registry as a [trec_df] input, nothing filtered. *)
Definition registry_data (self : TRECDLAdapter) : gmap string (list record) :=
  as_dict (mkLoaded (registry_docs self) (registry_queries self)
             (registry_qrels self)).

(** The record has a [doc_id], respectively a [query_id], attribute. *)
Definition has_doc_id (x : record) : bool :=
  match x with RQuery _ => false | _ => true end.
Definition has_query_id (x : record) : bool :=
  match x with RDoc _ => false | _ => true end.

(** A registry of which only the document stream breaks, after two
    records. *)
Definition late_failure : TRECDLAdapter :=
  mkAdapter
    (mkDataset (SCons d1 (SCons d2 (SFail (OSError "connection reset"))))
       (stream_of_list [q2; q1; q3]) (stream_of_list [r11; r33]))
    "msmarco-passage/trec-dl-2020" 2020 "passage".

(** A registry answering every identifier with the same dataset. *)
Definition constant_registry (ds : Dataset) (dataset_id : string) : M Dataset :=
  Ok ds.

(** A registry that cannot be reached. *)
Definition offline_registry (dataset_id : string) : M Dataset :=
  Raise (OSError "network unreachable").

(** * Construction *)

Example dataset_id_2020_passage :
  dataset_id 2020 "passage" = "msmarco-passage/trec-dl-2020".
Proof. reflexivity. Qed.

Example dataset_id_2021_document :
  dataset_id 2021 "document" = "msmarco-document-v2/trec-dl-2021".
Proof. vm_compute. reflexivity. Qed.

(** C3: identifier resolution is a function of (year, mode) that follows the
    two naming schemes: for every mode, years 2019 and 2020 resolve to
    "msmarco-<mode>/trec-dl-<year>" and 2021 to
    "msmarco-<mode>-v2/trec-dl-2021"; and the adapter a successful
    construction returns carries exactly this identifier as its name. *)
Theorem dataset_id_naming_schemes (mode : string) :
  dataset_id 2019 mode = "msmarco-" +:+ mode +:+ "/trec-dl-2019" ∧
  dataset_id 2020 mode = "msmarco-" +:+ mode +:+ "/trec-dl-2020" ∧
  dataset_id 2021 mode = "msmarco-" +:+ mode +:+ "-v2/trec-dl-2021" ∧
  ∀ ir_datasets_load year,
    match init ir_datasets_load year mode with
    | Ok self => name self = dataset_id year mode
    | Raise _ => True
    end.
Proof.
  repeat split.
  intros ir y. unfold init.
  destruct (negb (bool_decide (y ∈ YEARS))); [done|].
  destruct (negb (bool_decide (mode ∈ MODES))); [done|].
  cbv zeta. destruct (ir (dataset_id y mode)) as [ds|[]]; done.
Qed.

(** The error of an invalid configuration, as [__init__] raises it. *)
Lemma init_invalid_configuration (ir_datasets_load : string → M Dataset)
    (year : Z) (mode : string) (e : exn) :
  year ∉ YEARS ∨ mode ∉ MODES →
  init ir_datasets_load year mode = Raise e →
  e = ValueError years_error_msg ∨ e = ValueError modes_error_msg.
Proof.
  intros Hbad. unfold init.
  destruct (bool_decide (year ∈ YEARS)) eqn:Hy; simpl; [|intros [= <-]; by left].
  destruct (bool_decide (mode ∈ MODES)) eqn:Hm; simpl; [|intros [= <-]; by right].
  apply bool_decide_eq_true_1 in Hy, Hm. by destruct Hbad.
Qed.

(** C6, as the code has it: the not-found error is not of a kind of its own.
    A registry that knows nothing makes [__init__] raise a [ValueError] for
    the allowed configuration (2021, passage), and a [ValueError] as well for
    the year 2018 and for the mode "paragraph": the three errors have the
    same class. *)
Lemma init_not_found_kind_not_distinct :
  init empty_registry 2021 "passage"
  = Raise (ValueError
      "Dataset not found in ir_datasets: msmarco-passage-v2/trec-dl-2021") ∧
  init empty_registry 2018 "passage" = Raise (ValueError years_error_msg) ∧
  init empty_registry 2021 "paragraph" = Raise (ValueError modes_error_msg) ∧
  ¬ (exn_class (ValueError
       "Dataset not found in ir_datasets: msmarco-passage-v2/trec-dl-2021")
     ≠ exn_class (ValueError years_error_msg)) ∧
  ¬ (exn_class (ValueError
       "Dataset not found in ir_datasets: msmarco-passage-v2/trec-dl-2021")
     ≠ exn_class (ValueError modes_error_msg)).
Proof.
  split; [reflexivity|]. split; [reflexivity|]. split; [reflexivity|].
  split; intros Hne; by apply Hne.
Qed.

(** C6, amended: for an allowed (year, mode) whose identifier the registry
    reports unknown (a [KeyError]), construction raises a [ValueError] whose
    message is "Dataset not found in ir_datasets: " followed by the attempted
    identifier. The registry's [KeyError] is wrapped, not passed on: the
    error raised is of another class. It is of the same class as every
    invalid-configuration error [__init__] raises, and differs from each of
    them by its message only. *)
Theorem init_dataset_not_found_ValueError
    (ir_datasets_load : string → M Dataset) (year : Z) (mode msg : string) :
  year ∈ YEARS →
  mode ∈ MODES →
  ir_datasets_load (dataset_id year mode) = Raise (KeyError msg) →
  let not_found :=
    ValueError ("Dataset not found in ir_datasets: " +:+ dataset_id year mode) in
  init ir_datasets_load year mode = Raise not_found ∧
  exn_class not_found ≠ exn_class (KeyError msg) ∧
  ∀ (ir_datasets_load' : string → M Dataset) (year' : Z) (mode' : string)
    (invalid_configuration : exn),
    year' ∉ YEARS ∨ mode' ∉ MODES →
    init ir_datasets_load' year' mode' = Raise invalid_configuration →
    exn_class invalid_configuration = exn_class not_found ∧
    invalid_configuration ≠ not_found.
Proof.
  intros Hy Hm Hload not_found. subst not_found. split; [|split].
  - unfold init. rewrite (bool_decide_eq_true_2 _ Hy), (bool_decide_eq_true_2 _ Hm).
    cbn [negb]. cbv zeta. by rewrite Hload.
  - simpl. discriminate.
  - intros ir' year' mode' e Hbad Hinit.
    destruct (init_invalid_configuration ir' year' mode' e Hbad Hinit) as [->| ->].
    + split; [done|]. unfold years_error_msg. simpl. discriminate.
    + split; [done|]. unfold modes_error_msg. simpl. discriminate.
Qed.

Lemma init_dataset_not_found_ValueError_witness :
  init empty_registry 2021 "passage"
  = Raise (ValueError
      "Dataset not found in ir_datasets: msmarco-passage-v2/trec-dl-2021") ∧
  exn_class (ValueError years_error_msg)
  = exn_class (ValueError
      "Dataset not found in ir_datasets: msmarco-passage-v2/trec-dl-2021") ∧
  ValueError years_error_msg
  ≠ ValueError
      "Dataset not found in ir_datasets: msmarco-passage-v2/trec-dl-2021".
Proof.
  assert (2021%Z ∈ YEARS) as Hy by by apply (bool_decide_unpack _).
  assert ("passage" ∈ MODES) as Hm by by apply (bool_decide_unpack _).
  assert (2018%Z ∉ YEARS ∨ "passage" ∉ MODES) as Hbad
    by (left; by apply (bool_decide_eq_false_1 (2018%Z ∈ YEARS))).
  destruct (init_dataset_not_found_ValueError empty_registry 2021 "passage"
              (dataset_id 2021 "passage") Hy Hm eq_refl) as (Hinit & _ & Hcfg).
  split; [exact Hinit|].
  exact (Hcfg empty_registry 2018%Z "passage" (ValueError years_error_msg)
           Hbad eq_refl).
Defined.

(** Whatever [__init__] raises is a [ValueError] of its own (the two
    configuration errors and the not-found error share this class and differ
    by message only) or an exception of the registry other than [KeyError],
    passed on as it is. *)
Lemma init_raises_ValueError_or_passes_on (ir_datasets_load : string → M Dataset)
    (year : Z) (mode : string) (e : exn) :
  init ir_datasets_load year mode = Raise e →
  (∃ m, e = ValueError m) ∨ ir_datasets_load (dataset_id year mode) = Raise e.
Proof.
  unfold init.
  destruct (negb (bool_decide (year ∈ YEARS))); [intros [= <-]; eauto|].
  destruct (negb (bool_decide (mode ∈ MODES))); [intros [= <-]; eauto|].
  cbv zeta. destruct (ir_datasets_load (dataset_id year mode)) as [ds|[]];
    intros [= <-]; eauto.
Qed.

(** * Bulk load *)

Section stream_facts.
Context {A : Type}.
Implicit Types (s : stream A) (l : list A) (cond : A → bool).

Lemma stream_items_of_list l : stream_items (stream_of_list l) = l.
Proof. induction l as [|x l IH]; simpl; congruence. Qed.

Lemma stream_failure_of_list l : stream_failure (stream_of_list l) = None.
Proof. induction l as [|x l IH]; simpl; congruence. Qed.

Lemma for_stream_ok {St} (body : St → A → St) s st :
  stream_failure s = None →
  for_stream body s st = Ok (foldl body st (stream_items s)).
Proof.
  revert st. induction s as [|x s IH|e]; intros st Hs; simpl in *.
  - done.
  - by apply IH.
  - done.
Qed.

Lemma for_stream_fail {St} (body : St → A → St) s st e :
  stream_failure s = Some e → for_stream body s st = Raise e.
Proof.
  revert st. induction s as [|x s IH|e']; intros st Hs; simpl in *.
  - done.
  - by apply IH.
  - congruence.
Qed.

Lemma list_comp_ok cond s :
  stream_failure s = None →
  list_comp cond s = Ok (filter (λ x, cond x) (stream_items s)).
Proof.
  induction s as [|x s IH|e]; intros Hs; simpl in *.
  - done.
  - rewrite (IH Hs). simpl. rewrite filter_cons.
    destruct (cond x); by case_decide.
  - done.
Qed.

Lemma list_comp_fail cond s e :
  stream_failure s = Some e → list_comp cond s = Raise e.
Proof.
  induction s as [|x s IH|e']; intros Hs; simpl in *.
  - done.
  - by rewrite (IH Hs).
  - congruence.
Qed.
End stream_facts.

(** The keys of the grouping built in step 1 are the judged query ids. *)
Lemma setdefault_append_is_Some (m : gmap string (list Qrel)) (r : Qrel) (k : string) :
  is_Some (setdefault_append m r !! k) ↔ is_Some (m !! k) ∨ k = qrel_query_id r.
Proof.
  unfold setdefault_append. rewrite lookup_insert_is_Some.
  destruct (decide (qrel_query_id r = k)); intuition congruence.
Qed.

Lemma qrel_map_is_Some (rs : list Qrel) (m : gmap string (list Qrel)) (k : string) :
  is_Some (foldl setdefault_append m rs !! k)
  ↔ is_Some (m !! k) ∨ k ∈ qrel_query_id <$> rs.
Proof.
  revert m. induction rs as [|r rs IH]; intros m; simpl.
  - rewrite elem_of_nil. tauto.
  - rewrite IH, setdefault_append_is_Some, elem_of_cons. tauto.
Qed.

Lemma judged_filter (rs : list Qrel) (qs : list Query) :
  filter (λ q, bool_decide
            (is_Some (foldl setdefault_append ∅ rs !! query_id q))) qs
  = judged_queries qs rs.
Proof.
  apply list_filter_iff. intros q.
  rewrite bool_decide_spec, qrel_map_is_Some, lookup_empty, is_Some_alt.
  tauto.
Qed.

(** What [load] returns when no stream fails. *)
Lemma load_streams_ok (self : TRECDLAdapter) (limit : option Z) :
  streams_ok self →
  let sel := selected limit (judged self) in
  let rs := judgments_of (registry_qrels self) sel in
  load self limit = Ok (mkLoaded (documents_of (registry_docs self) rs) sel rs).
Proof.
  intros (Hr & Hq & Hd) sel. unfold load, load_streams.
  rewrite (for_stream_ok _ _ _ Hr). simpl.
  rewrite (list_comp_ok _ _ Hq). simpl.
  rewrite judged_filter. fold (registry_queries self) (registry_qrels self).
  fold (judged self). fold (selected limit (judged self)). fold sel.
  rewrite (list_comp_ok _ _ Hr). simpl. fold (registry_qrels self).
  assert (filter (λ r, bool_decide (qrel_query_id r ∈
            (list_to_set (query_id <$> sel) : gset string))) (registry_qrels self)
          = judgments_of (registry_qrels self) sel) as ->.
  { apply list_filter_iff. intros r.
    by rewrite bool_decide_spec, elem_of_list_to_set. }
  rewrite (list_comp_ok _ _ Hd). simpl. fold (registry_docs self).
  assert (filter (λ d, bool_decide (doc_id d ∈
            (list_to_set (qrel_doc_id <$> judgments_of (registry_qrels self) sel)
               : gset string))) (registry_docs self)
          = documents_of (registry_docs self)
              (judgments_of (registry_qrels self) sel)) as ->.
  { apply list_filter_iff. intros d.
    by rewrite bool_decide_spec, elem_of_list_to_set. }
  done.
Qed.

(** Whatever part of the judged queries is kept, restricting judgments and
    documents to it leaves no orphan. *)
Lemma restriction_closed (qs sel : list Query) (rs : list Qrel) (ds : list Doc) :
  sel ⊆ judged_queries qs rs →
  closed (mkLoaded (documents_of ds (judgments_of rs sel)) sel (judgments_of rs sel)).
Proof.
  intros Hsel. unfold closed; simpl. split; [|split].
  - intros q Hq. pose proof (Hsel q Hq) as Hj.
    unfold judged_queries in Hj. apply list_elem_of_filter in Hj as [Hj _].
    apply list_elem_of_fmap in Hj as (r & Hid & Hr).
    exists r. split; [|done]. unfold judgments_of.
    apply list_elem_of_filter. split; [|done].
    rewrite <- Hid. apply list_elem_of_fmap. eauto.
  - intros r Hr. unfold judgments_of in Hr.
    apply list_elem_of_filter in Hr as [Hr _].
    apply list_elem_of_fmap in Hr as (q & Hid & Hq). eauto.
  - intros d Hd. unfold documents_of in Hd.
    apply list_elem_of_filter in Hd as [Hd _].
    apply list_elem_of_fmap in Hd as (r & Hid & Hr). eauto.
Qed.

Lemma selected_subseteq (limit : option Z) (l : list Query) : selected limit l ⊆ l.
Proof.
  unfold selected, slice_to. destruct (truthy limit); [|done].
  destruct limit as [k|]; [|done].
  destruct (k <? 0)%Z; apply sublist_subseteq, sublist_take.
Qed.

Lemma streams_ok_fixture : streams_ok fixture.
Proof. repeat split. Qed.

(** C1: when no registry stream fails, [load(limit=None)] returns exactly the
    registry queries that have at least one judgment (in registry order),
    exactly the registry judgments of those queries, and exactly the registry
    documents those judgments reference; the result has no orphan query,
    judgment or document. *)
Theorem load_no_limit_closure (self : TRECDLAdapter) :
  streams_ok self →
  ∃ res, load self None = Ok res ∧
    queries res = judged_queries (registry_queries self) (registry_qrels self) ∧
    qrels res = judgments_of (registry_qrels self) (queries res) ∧
    docs res = documents_of (registry_docs self) (qrels res) ∧
    closed res.
Proof.
  intros Hok. eexists. split; [apply (load_streams_ok self None Hok)|].
  simpl. repeat split; try done.
  all: apply (restriction_closed (registry_queries self)); done.
Qed.

Lemma load_no_limit_closure_witness :
  streams_ok fixture ∧
  ∃ res, load fixture None = Ok res ∧
    queries res = [q1; q3] ∧ qrels res = [r11; r33] ∧ docs res = [d1; d3] ∧
    closed res.
Proof.
  split; [exact streams_ok_fixture|].
  destruct (load_no_limit_closure fixture streams_ok_fixture)
    as (res & Hload & Hq & Hr & Hd & Hc).
  exists res. rewrite Hd, Hr, Hq. repeat split; try apply Hc; try done.
  all: vm_compute; reflexivity.
Defined.

(** C2: [load] never raises. Whatever the registry streams do, at whichever
    of the four iterations of the body (a transient failure of the second
    pass over the judgments included), and whatever the limit, [load] returns
    a value; and unless every iteration ran to its end without failing, that
    value is the empty result. *)
Theorem load_never_raises (limit : option Z) :
  (∀ (qrels_iter1 : stream Qrel) (queries_iter : stream Query)
     (qrels_iter2 : stream Qrel) (docs_iter : stream Doc),
     ∃ res, load_streams qrels_iter1 queries_iter qrels_iter2 docs_iter limit
            = Ok res ∧
       (stream_failure qrels_iter1 = None ∧ stream_failure queries_iter = None ∧
        stream_failure qrels_iter2 = None ∧ stream_failure docs_iter = None
        ∨ res = empty_result)) ∧
  (∀ self : TRECDLAdapter,
     ∃ res, load self limit = Ok res ∧ (streams_ok self ∨ res = empty_result)).
Proof.
  assert (∀ s1 s2 s3 s4,
     ∃ res, load_streams s1 s2 s3 s4 limit = Ok res ∧
       (stream_failure s1 = None ∧ stream_failure s2 = None ∧
        stream_failure s3 = None ∧ stream_failure s4 = None
        ∨ res = empty_result)) as Hgen.
  { intros s1 s2 s3 s4. unfold load_streams.
    destruct (stream_failure s1) as [e|] eqn:H1.
    { exists empty_result. split; [|by right].
      by rewrite (for_stream_fail _ _ _ _ H1). }
    rewrite (for_stream_ok _ _ _ H1). simpl.
    destruct (stream_failure s2) as [e|] eqn:H2.
    { exists empty_result. split; [|by right].
      by rewrite (list_comp_fail _ _ _ H2). }
    rewrite (list_comp_ok _ _ H2). simpl.
    destruct (stream_failure s3) as [e|] eqn:H3.
    { exists empty_result. split; [|by right].
      by rewrite (list_comp_fail _ _ _ H3). }
    rewrite (list_comp_ok _ _ H3). simpl.
    destruct (stream_failure s4) as [e|] eqn:H4.
    { exists empty_result. split; [|by right].
      by rewrite (list_comp_fail _ _ _ H4). }
    rewrite (list_comp_ok _ _ H4). simpl.
    eexists. split; [done|by left]. }
  split; [exact Hgen|].
  intros self. unfold load, streams_ok.
  destruct (Hgen (qrels_iter (dataset self)) (queries_iter (dataset self))
              (qrels_iter (dataset self)) (docs_iter (dataset self)))
    as (res & Hres & Hcase).
  exists res. split; [done|]. tauto.
Qed.

(** A judgment stream that breaks in mid-iteration: the empty result. *)
Example load_broken : load broken None = Ok empty_result.
Proof. reflexivity. Qed.

(** The same when only the second pass over the judgments breaks. *)
Example load_second_pass_broken :
  load_streams (stream_of_list [r11; r33]) (stream_of_list [q2; q1; q3])
    (SCons r11 (SFail (OSError "connection reset")))
    (stream_of_list [d1; d2; d3]) None
  = Ok empty_result.
Proof. vm_compute. reflexivity. Qed.

(** C9: a limit of 0 is falsy, so it means "no limit" and not "zero
    queries": [load(limit=0)] returns what [load(limit=None)] returns, and
    when no registry stream fails that is every judged query, none cut off,
    with all their judgments and the documents these reference. *)
Theorem load_limit_zero (self : TRECDLAdapter) :
  load self (Some 0%Z) = load self None ∧
  (streams_ok self →
   ∃ res, load self (Some 0%Z) = Ok res ∧
     queries res = judged self ∧
     length (queries res) = length (judged self) ∧
     qrels res = judgments_of (registry_qrels self) (judged self) ∧
     docs res = documents_of (registry_docs self) (qrels res)).
Proof.
  split; [reflexivity|].
  intros Hok. eexists. split; [apply (load_streams_ok self (Some 0%Z) Hok)|].
  unfold selected. simpl. done.
Qed.

(** With limit 0 the fixture's two judged queries are both returned. *)
Lemma load_limit_zero_witness :
  load fixture (Some 0%Z) = load fixture None ∧
  ∃ res, load fixture (Some 0%Z) = Ok res ∧
    queries res = [q1; q3] ∧ length (queries res) = 2.
Proof.
  split; [exact (proj1 (load_limit_zero fixture))|].
  destruct (proj2 (load_limit_zero fixture) streams_ok_fixture)
    as (res & Hload & Hq & Hlen & _).
  exists res. rewrite Hlen, Hq. repeat split; try done.
Defined.

(** The limit is applied to the judged queries, not to the registry's. *)
Example load_limit_after_filter :
  load fixture (Some 1%Z) = Ok (mkLoaded [d1] [q1] [r11]) ∧
  judged_queries (take 1 (registry_queries fixture)) (registry_qrels fixture) = [].
Proof. split; vm_compute; reflexivity. Qed.

(** C4: when no registry stream fails and 0 < k ≤ number of judged queries,
    [load(limit=k)] returns exactly k queries, the first k judged queries in
    registry order (the judged-query filter comes first, the truncation
    second), together with exactly the registry judgments of those queries
    and the registry documents these judgments reference, without orphans. *)
Theorem load_limit_first_k (self : TRECDLAdapter) (k : Z) :
  streams_ok self →
  (0 < k)%Z →
  (k ≤ Z.of_nat (length (judged self)))%Z →
  ∃ res, load self (Some k) = Ok res ∧
    queries res = take (Z.to_nat k) (judged self) ∧
    Z.of_nat (length (queries res)) = k ∧
    qrels res = judgments_of (registry_qrels self) (queries res) ∧
    docs res = documents_of (registry_docs self) (qrels res) ∧
    closed res.
Proof.
  intros Hok Hpos Hle. eexists. split; [apply (load_streams_ok self (Some k) Hok)|].
  assert (selected (Some k) (judged self) = take (Z.to_nat k) (judged self)) as Hsel.
  { unfold selected, slice_to, truthy.
    destruct (Z.eqb_spec k 0); [lia|]. simpl.
    destruct (Z.ltb_spec k 0); [lia|]. done. }
  simpl. rewrite Hsel. repeat split; try done.
  - rewrite length_take. lia.
  - apply (restriction_closed (registry_queries self) _ (registry_qrels self)
             (registry_docs self)), sublist_subseteq, sublist_take.
  - apply (restriction_closed (registry_queries self) _ (registry_qrels self)
             (registry_docs self)), sublist_subseteq, sublist_take.
  - apply (restriction_closed (registry_queries self) _ (registry_qrels self)
             (registry_docs self)), sublist_subseteq, sublist_take.
Qed.

Lemma load_limit_first_k_witness :
  ∃ res, load fixture (Some 1%Z) = Ok res ∧
    queries res = [q1] ∧ qrels res = [r11] ∧ docs res = [d1].
Proof.
  destruct (load_limit_first_k fixture 1 streams_ok_fixture)
    as (res & Hload & Hq & _ & Hr & Hd & _).
  - lia.
  - vm_compute. discriminate.
  - exists res. rewrite Hd, Hr, Hq. repeat split; try done.
    all: vm_compute; reflexivity.
Defined.

(** C10: when no registry stream fails and m ≥ 1, [load(limit=-m)] returns a
    value whose queries are the judged queries in registry order with the
    last m removed (none at all when m is at least their number), and whose
    judgments and documents are restricted to the remaining queries. *)
Theorem load_negative_limit (self : TRECDLAdapter) (m : Z) :
  streams_ok self →
  (1 ≤ m)%Z →
  ∃ res, load self (Some (- m)%Z) = Ok res ∧
    queries res = take (length (judged self) - Z.to_nat m) (judged self) ∧
    length (queries res) = length (judged self) - Z.to_nat m ∧
    ((Z.of_nat (length (judged self)) ≤ m)%Z → queries res = []) ∧
    qrels res = judgments_of (registry_qrels self) (queries res) ∧
    docs res = documents_of (registry_docs self) (qrels res) ∧
    closed res.
Proof.
  intros Hok Hm. eexists. split; [apply (load_streams_ok self (Some (- m)%Z) Hok)|].
  assert (selected (Some (- m)%Z) (judged self)
          = take (length (judged self) - Z.to_nat m) (judged self)) as Hsel.
  { unfold selected, slice_to, truthy.
    destruct (Z.eqb_spec (- m) 0); [lia|]. simpl.
    destruct (Z.ltb_spec (- m) 0); [|lia]. f_equal. lia. }
  simpl. rewrite Hsel. repeat split; try done.
  - rewrite length_take. lia.
  - intros Hall.
    replace (length (judged self) - Z.to_nat m) with 0 by lia. done.
  - apply (restriction_closed (registry_queries self) _ (registry_qrels self)
             (registry_docs self)), sublist_subseteq, sublist_take.
  - apply (restriction_closed (registry_queries self) _ (registry_qrels self)
             (registry_docs self)), sublist_subseteq, sublist_take.
  - apply (restriction_closed (registry_queries self) _ (registry_qrels self)
             (registry_docs self)), sublist_subseteq, sublist_take.
Qed.

Lemma load_negative_limit_witness :
  ∃ res, load fixture (Some (-1)%Z) = Ok res ∧
    queries res = [q1] ∧ qrels res = [r11] ∧ docs res = [d1].
Proof.
  destruct (load_negative_limit fixture 1 streams_ok_fixture)
    as (res & Hload & Hq & _ & _ & Hr & Hd & _).
  - lia.
  - exists res. rewrite Hd, Hr, Hq. repeat split; try done.
    all: vm_compute; reflexivity.
Defined.

(** A negative limit beyond the number of judged queries empties the result. *)
Example load_limit_minus_5 : load fixture (Some (-5)%Z) = Ok empty_result.
Proof. vm_compute. reflexivity. Qed.

(** * Lazy iterators *)

Lemma iter_loop_first_n {A} (s : stream A) (n count : Z) :
  (0 ≤ count < n)%Z →
  (n - count ≤ Z.of_nat (length (stream_items s)))%Z →
  iter_loop (Some n) count s
  = stream_of_list (take (Z.to_nat (n - count)) (stream_items s)).
Proof.
  revert count. induction s as [|x s IH|e]; intros count Hc Hlen; simpl in *.
  - lia.
  - replace (Z.to_nat (n - count)) with (S (Z.to_nat (n - (count + 1)))) by lia.
    simpl. f_equal. unfold limit_reached.
    destruct (Z.eqb_spec n 0); [lia|]. simpl.
    destruct (Z.leb_spec n (count + 1)).
    + replace (Z.to_nat (n - (count + 1))) with 0 by lia. by rewrite take_0.
    + apply IH; lia.
  - lia.
Qed.

(** Without a limit, or with limit 0, the generators pass their stream on
    unchanged, failure included. *)
Lemma iter_loop_no_limit {A} (s : stream A) (limit : option Z) (count : Z) :
  truthy limit = false → iter_loop limit count s = s.
Proof.
  intros Hl. revert count. induction s as [|x s IH|e]; intros count; simpl.
  - done.
  - assert (limit_reached limit (count + 1) = false) as ->.
    { destruct limit as [k|]; [|done]. simpl in *. by rewrite Hl. }
    by rewrite IH.
  - done.
Qed.

(** C7: with a limit n > 0 and a registry stream that yields at least n
    records, each of [iter_docs], [iter_queries] and [iter_qrels] yields
    exactly the first n records of its own stream, in registry order, and
    then stops. The other streams play no part: no record is dropped for
    being unjudged. *)
Theorem iter_limit_first_n (self : TRECDLAdapter) (n : Z) :
  (0 < n)%Z →
  ((n ≤ Z.of_nat (length (registry_docs self)))%Z →
   iter_docs self (Some n)
   = stream_of_list (take (Z.to_nat n) (registry_docs self))) ∧
  ((n ≤ Z.of_nat (length (registry_queries self)))%Z →
   iter_queries self (Some n)
   = stream_of_list (take (Z.to_nat n) (registry_queries self))) ∧
  ((n ≤ Z.of_nat (length (registry_qrels self)))%Z →
   iter_qrels self (Some n)
   = stream_of_list (take (Z.to_nat n) (registry_qrels self))).
Proof.
  intros Hn. unfold iter_docs, iter_queries, iter_qrels.
  repeat split; intros Hlen.
  all: rewrite iter_loop_first_n by (rewrite ?Z.sub_0_r; first [lia | exact Hlen]).
  all: by rewrite Z.sub_0_r.
Qed.

(** [d2] is referenced by no judgment and is still yielded. *)
Lemma iter_limit_first_n_witness :
  iter_docs fixture (Some 2%Z) = stream_of_list [d1; d2] ∧
  d2 ∉ documents_of (registry_docs fixture) (registry_qrels fixture).
Proof.
  split.
  - refine (proj1 (iter_limit_first_n fixture 2 _) _).
    + lia.
    + vm_compute. discriminate.
  - vm_compute. intros H. by apply list_elem_of_In in H as [[=]|[[=]|[]]].
Defined.

(** * Tabular flattening *)

Section text_lookup_facts.
Context {A : Type} (inj : A → record) (key : record → M string).
Context (keyA : A → string) (textA : A → option string).
Hypothesis key_inj : ∀ x, key (inj x) = Ok (keyA x).
Hypothesis text_inj : ∀ x, getattr_text (inj x) = default "" (textA x).

(** On records of the expected class the comprehension does not raise,
    and the mapping holds the text of the last record under each key. *)
Lemma text_lookup_typed (l : list A) (acc : gmap string string) :
  ∃ m, text_lookup key (inj <$> l) acc = Ok m ∧
    ∀ k, m !! k = match lookup_text keyA textA l k with
                  | Some t => Some t
                  | None => acc !! k
                  end.
Proof.
  revert acc. induction l as [|x l IH]; intros acc.
  - by exists acc.
  - destruct (IH (<[keyA x := default "" (textA x)]> acc)) as (m & Hok & Hm).
    exists m. split.
    { rewrite fmap_cons. simpl. rewrite key_inj. simpl. by rewrite text_inj. }
    intros k. rewrite Hm.
    unfold lookup_text. rewrite filter_cons.
    destruct (decide (keyA x = k)) as [->|Hne].
    + rewrite last_cons. destruct (last _); simpl; [done|].
      by rewrite lookup_insert_eq.
    + destruct (last _); simpl; [done|]. by rewrite lookup_insert_ne.
Qed.
End text_lookup_facts.


Lemma rows_loop_typed (query_lookup doc_lookup : gmap string string)
    (rs : list Qrel) (rows : list Row) :
  rows_loop query_lookup doc_lookup (RQrel <$> rs) rows
  = Ok (rows ++ omap (loop_row query_lookup doc_lookup) rs).
Proof.
  revert rows. induction rs as [|r rs IH]; intros rows.
  - simpl. by rewrite app_nil_r.
  - rewrite fmap_cons. simpl. rewrite IH. unfold loop_row. simpl.
    destruct (truthy_text _ && truthy_text _); [|done].
    by rewrite <- app_assoc.
Qed.

Lemma loop_row_spec (query_lookup doc_lookup : gmap string string)
    (qs : list Query) (ds : list Doc) (r : Qrel) :
  (∀ k, query_lookup !! k = lookup_text query_id query_text qs k) →
  (∀ k, doc_lookup !! k = lookup_text doc_id doc_text ds k) →
  loop_row query_lookup doc_lookup r = spec_row qs ds r.
Proof.
  intros Hq Hd. unfold loop_row, spec_row. rewrite Hq, Hd.
  destruct (lookup_text query_id _ _ _) as [query|]; [|done].
  destruct (lookup_text doc_id _ _ _) as [passage|]; simpl;
    [|by rewrite andb_false_r].
  repeat case_bool_decide; case_decide; simpl; tauto.
Qed.

(** When a judgment contributes a row, and which. *)
Lemma spec_row_Some (qs : list Query) (ds : list Doc) (r : Qrel) (row : Row) :
  spec_row qs ds r = Some row ↔
  ∃ query passage,
    lookup_text query_id query_text qs (qrel_query_id r) = Some query ∧
    lookup_text doc_id doc_text ds (qrel_doc_id r) = Some passage ∧
    query ≠ "" ∧ passage ≠ "" ∧
    row = (qrel_query_id r, query, qrel_doc_id r, passage,
           default 0%Z (qrel_relevance r)).
Proof.
  unfold spec_row.
  destruct (lookup_text query_id _ _ _) as [query|];
    [|split; [done|by intros (? & ? & ? & _)]].
  destruct (lookup_text doc_id _ _ _) as [passage|];
    [|split; [done|by intros (? & ? & _ & ? & _)]].
  case_decide as Hne.
  - split.
    + intros [= <-]. exists query, passage. tauto.
    + by intros (? & ? & [= <-] & [= <-] & _ & _ & ->).
  - split; [done|]. intros (? & ? & [= <-] & [= <-] & ? & ? & _). tauto.
Qed.

(** C5: on a dict holding documents, queries and judgments, [trec_df]
    returns the table whose rows are, in judgment order, the rows of those
    judgments for which both the query-text lookup and the document-text
    lookup give a text that is present and not empty; every other judgment is
    dropped and nothing is raised; an absent relevance becomes 0. *)
Theorem trec_df_rows (data : gmap string (list record))
    (ds : list Doc) (qs : list Query) (rs : list Qrel) :
  data !! "docs" = Some (RDoc <$> ds) →
  data !! "queries" = Some (RQuery <$> qs) →
  data !! "qrels" = Some (RQrel <$> rs) →
  trec_df data
  = Ok (mkDataFrame ["qid"; "query"; "docid"; "passage"; "rel"]
          (omap (spec_row qs ds) rs)) ∧
  ∀ r row, spec_row qs ds r = Some row ↔
    ∃ query passage,
      lookup_text query_id query_text qs (qrel_query_id r) = Some query ∧
      lookup_text doc_id doc_text ds (qrel_doc_id r) = Some passage ∧
      query ≠ "" ∧ passage ≠ "" ∧
      row = (qrel_query_id r, query, qrel_doc_id r, passage,
             default 0%Z (qrel_relevance r)).
Proof.
  intros Hd Hq Hr. split; [|apply spec_row_Some].
  unfold trec_df, getitem. simpl.
  rewrite Hd, Hq, Hr. simpl.
  destruct (text_lookup_typed RDoc attr_doc_id doc_id doc_text
              (λ _, eq_refl) (λ _, eq_refl) ds ∅) as (dl & -> & Hdl).
  simpl.
  destruct (text_lookup_typed RQuery attr_query_id query_id query_text
              (λ _, eq_refl) (λ _, eq_refl) qs ∅) as (ql & -> & Hql).
  simpl. rewrite rows_loop_typed. simpl. do 2 f_equal.
  apply list_omap_ext, Forall_Forall2_diag, Forall_forall.
  intros r _. apply loop_row_spec.
  - intros k. rewrite Hql, lookup_empty. by destruct (lookup_text _ _ _ _).
  - intros k. rewrite Hdl, lookup_empty. by destruct (lookup_text _ _ _ _).
Qed.

Lemma trec_df_rows_witness :
  trec_df sparse_data
  = Ok (mkDataFrame ["qid"; "query"; "docid"; "passage"; "rel"]
          [("q1", "what is x", "d1", "x is a thing", 0%Z)]).
Proof.
  exact (proj1 (trec_df_rows sparse_data
           [d1; d3; mkDoc "d4" (Some "")] [q1; q3]
           [r33; mkQrel "q1" "d4" (Some 1%Z); mkQrel "q1" "d9" (Some 1%Z);
            mkQrel "q1" "d1" None]
           eq_refl eq_refl eq_refl)).
Defined.

(** One query, one document, one judgment of grade 2: exactly one row. *)
Example trec_df_one_row :
  trec_df one_row_data
  = Ok (mkDataFrame ["qid"; "query"; "docid"; "passage"; "rel"]
          [("q1", "what is x", "d1", "x is a thing", 2%Z)]).
Proof. vm_compute. reflexivity. Qed.

(** Past the key check, only attribute access can raise. *)
Lemma attr_doc_id_raises (x : record) (e : exn) :
  attr_doc_id x = Raise e → ∃ m, e = AttributeError m.
Proof. destruct x; simpl; intros [= <-]; eauto. Qed.

Lemma attr_query_id_raises (x : record) (e : exn) :
  attr_query_id x = Raise e → ∃ m, e = AttributeError m.
Proof. destruct x; simpl; intros [= <-]; eauto. Qed.

Lemma text_lookup_raises (key : record → M string) (l : list record)
    (acc : gmap string string) (e : exn) :
  (∀ x e', key x = Raise e' → ∃ m, e' = AttributeError m) →
  text_lookup key l acc = Raise e → ∃ m, e = AttributeError m.
Proof.
  intros Hkey. revert acc. induction l as [|x l IH]; intros acc; simpl; [done|].
  destruct (key x) as [k|e'] eqn:Hk; simpl.
  - apply IH.
  - intros [= <-]. eauto.
Qed.

Lemma rows_loop_raises (query_lookup doc_lookup : gmap string string)
    (l : list record) (rows : list Row) (e : exn) :
  rows_loop query_lookup doc_lookup l rows = Raise e → ∃ m, e = AttributeError m.
Proof.
  revert rows. induction l as [|x l IH]; intros rows; simpl; [done|].
  destruct (attr_query_id x) as [qid|e'] eqn:Hq; simpl;
    [|intros [= <-]; by eapply attr_query_id_raises].
  destruct (attr_doc_id x) as [docid|e'] eqn:Hd; simpl;
    [|intros [= <-]; by eapply attr_doc_id_raises].
  apply IH.
Qed.

(** C8: [trec_df] raises the malformed-input error whenever one of the keys
    "docs", "queries", "qrels" is missing from its input; an input holding
    all three passes the check, so that error is not what it gets. *)
Theorem trec_df_required_keys (data : gmap string (list record)) :
  (∀ k, k ∈ required_keys → data !! k = None →
        trec_df data = Raise malformed_input) ∧
  ((∀ k, k ∈ required_keys → is_Some (data !! k)) →
   trec_df data ≠ Raise malformed_input).
Proof.
  split.
  - intros k Hk Hnone. unfold trec_df.
    assert (forallb (λ k, bool_decide (is_Some (data !! k)))
              ["docs"; "queries"; "qrels"] = false) as ->; [|done].
    apply not_true_is_false. intros Hall.
    rewrite forallb_forall in Hall.
    specialize (Hall k (proj1 (list_elem_of_In _ _) Hk)).
    apply bool_decide_eq_true_1 in Hall as [? ?]. congruence.
  - intros Hall. unfold trec_df, getitem, malformed_input. simpl.
    destruct (Hall "docs") as [vd ->]; [set_solver|].
    destruct (Hall "queries") as [vq ->]; [set_solver|].
    destruct (Hall "qrels") as [vr ->]; [set_solver|].
    simpl.
    destruct (text_lookup attr_doc_id vd ∅) as [dl|e] eqn:Hdl; simpl.
    2:{ apply text_lookup_raises in Hdl as [m ->];
          [discriminate|apply attr_doc_id_raises]. }
    destruct (text_lookup attr_query_id vq ∅) as [ql|e] eqn:Hql; simpl.
    2:{ apply text_lookup_raises in Hql as [m ->];
          [discriminate|apply attr_query_id_raises]. }
    destruct (rows_loop ql dl vr []) as [rows|e] eqn:Hrows; simpl; [done|].
    apply rows_loop_raises in Hrows as [m ->]. discriminate.
Qed.

Lemma trec_df_required_keys_witness :
  trec_df (delete "qrels" one_row_data) = Raise malformed_input ∧
  trec_df one_row_data ≠ Raise malformed_input.
Proof.
  split.
  - apply (proj1 (trec_df_required_keys (delete "qrels" one_row_data)) "qrels").
    + by apply (bool_decide_unpack _).
    + reflexivity.
  - apply (proj2 (trec_df_required_keys one_row_data)).
    intros k Hk. apply list_elem_of_In in Hk.
    destruct Hk as [<-|[<-|[<-|[]]]]; vm_compute; eauto.
Defined.

(** * Further properties of construction *)

(** X1: a year outside [YEARS] is rejected with the years error, whatever
    the mode and whatever the registry would answer. *)
Theorem init_invalid_year (ir_datasets_load : string → M Dataset)
    (year : Z) (mode : string) :
  year ∉ YEARS →
  init ir_datasets_load year mode = Raise (ValueError years_error_msg).
Proof.
  intros Hy. unfold init. by rewrite (bool_decide_eq_false_2 _ Hy).
Qed.

Lemma init_invalid_year_witness :
  init (constant_registry fixture_dataset) 2018 "paragraph"
  = Raise (ValueError "Supported years: [2019, 2020, 2021]").
Proof.
  apply (init_invalid_year (constant_registry fixture_dataset) 2018 "paragraph").
  by apply (bool_decide_eq_false_1 (2018%Z ∈ YEARS)).
Defined.

(** X2: with an allowed year, a mode outside [MODES] is rejected with the
    modes error, whatever the registry would answer. *)
Theorem init_invalid_mode (ir_datasets_load : string → M Dataset)
    (year : Z) (mode : string) :
  year ∈ YEARS →
  mode ∉ MODES →
  init ir_datasets_load year mode = Raise (ValueError modes_error_msg).
Proof.
  intros Hy Hm. unfold init.
  by rewrite (bool_decide_eq_true_2 _ Hy), (bool_decide_eq_false_2 _ Hm).
Qed.

Lemma init_invalid_mode_witness :
  init (constant_registry fixture_dataset) 2020 "paragraph"
  = Raise (ValueError "mode must be one of: ['passage', 'document']").
Proof.
  apply (init_invalid_mode (constant_registry fixture_dataset) 2020 "paragraph").
  - by apply (bool_decide_unpack _).
  - by apply (bool_decide_eq_false_1 ("paragraph" ∈ MODES)).
Defined.

(** X3: construction succeeds exactly when year and mode are allowed and
    the registry knows the resolved identifier; the adapter then holds the
    registry's dataset, the identifier as its name, and the year and mode it
    was given. *)
Theorem init_Ok_iff (ir_datasets_load : string → M Dataset)
    (year : Z) (mode : string) (self : TRECDLAdapter) :
  init ir_datasets_load year mode = Ok self ↔
  year ∈ YEARS ∧ mode ∈ MODES ∧
  ∃ ds, ir_datasets_load (dataset_id year mode) = Ok ds ∧
        self = mkAdapter ds (dataset_id year mode) year mode.
Proof.
  unfold init. split.
  - destruct (decide (year ∈ YEARS)) as [Hy|Hy];
      [rewrite (bool_decide_eq_true_2 _ Hy)
      |by rewrite (bool_decide_eq_false_2 _ Hy)].
    destruct (decide (mode ∈ MODES)) as [Hm|Hm];
      [rewrite (bool_decide_eq_true_2 _ Hm)
      |by rewrite (bool_decide_eq_false_2 _ Hm)].
    simpl. destruct (ir_datasets_load (dataset_id year mode)) as [ds|[]];
      intros [= <-]. eauto.
  - intros (Hy & Hm & ds & Hds & ->).
    rewrite (bool_decide_eq_true_2 _ Hy), (bool_decide_eq_true_2 _ Hm).
    simpl. by rewrite Hds.
Qed.

Lemma init_Ok_iff_witness :
  init (constant_registry fixture_dataset) 2021 "document"
  = Ok (mkAdapter fixture_dataset "msmarco-document-v2/trec-dl-2021" 2021
          "document").
Proof.
  apply (proj2 (init_Ok_iff (constant_registry fixture_dataset) 2021 "document" _)).
  split; [by apply (bool_decide_unpack _)|].
  split; [by apply (bool_decide_unpack _)|].
  exists fixture_dataset. split; reflexivity.
Defined.

(** X4: only the registry's [KeyError] is rewrapped; any other exception of
    the registry lookup leaves [__init__] as it is. *)
Theorem init_passes_on_other_errors (ir_datasets_load : string → M Dataset)
    (year : Z) (mode : string) (e : exn) :
  year ∈ YEARS →
  mode ∈ MODES →
  ir_datasets_load (dataset_id year mode) = Raise e →
  (∀ msg, e ≠ KeyError msg) →
  init ir_datasets_load year mode = Raise e.
Proof.
  intros Hy Hm He Hne. unfold init.
  rewrite (bool_decide_eq_true_2 _ Hy), (bool_decide_eq_true_2 _ Hm).
  simpl. rewrite He. destruct e; try done. by destruct (Hne msg).
Qed.

Lemma init_passes_on_other_errors_witness :
  init offline_registry 2019 "passage" = Raise (OSError "network unreachable").
Proof.
  apply (init_passes_on_other_errors offline_registry 2019 "passage").
  - by apply (bool_decide_unpack _).
  - by apply (bool_decide_unpack _).
  - reflexivity.
  - intros msg. discriminate.
Defined.

(** X5: over the allowed years and modes the identifier determines the
    configuration: two configurations with the same identifier are equal. *)
Theorem dataset_id_injective (year1 year2 : Z) (mode1 mode2 : string) :
  year1 ∈ YEARS → year2 ∈ YEARS → mode1 ∈ MODES → mode2 ∈ MODES →
  dataset_id year1 mode1 = dataset_id year2 mode2 →
  year1 = year2 ∧ mode1 = mode2.
Proof.
  unfold YEARS, MODES. rewrite !elem_of_cons, !elem_of_nil.
  intros [->|[->|[->|[]]]] [->|[->|[->|[]]]] [->|[->|[]]] [->|[->|[]]] Hid;
    first [done | vm_compute in Hid; discriminate Hid].
Qed.

Lemma dataset_id_injective_witness :
  (2020%Z = 2020%Z) ∧ "passage" = "passage".
Proof.
  apply (dataset_id_injective 2020 2020 "passage" "passage");
    first [by apply (bool_decide_unpack _) | reflexivity].
Defined.

(** * Further properties of the bulk load *)

(** A failing stream leaves nothing but the empty result. *)
Lemma load_failed (self : TRECDLAdapter) (limit : option Z) :
  ¬ streams_ok self → load self limit = Ok empty_result.
Proof.
  unfold streams_ok, load, load_streams. intros Hnot.
  destruct (stream_failure (qrels_iter (dataset self))) as [e|] eqn:Hr.
  { by rewrite (for_stream_fail _ _ _ _ Hr). }
  rewrite (for_stream_ok _ _ _ Hr). simpl.
  destruct (stream_failure (queries_iter (dataset self))) as [e|] eqn:Hq.
  { by rewrite (list_comp_fail _ _ _ Hq). }
  rewrite (list_comp_ok _ _ Hq). simpl.
  rewrite (list_comp_ok _ _ Hr). simpl.
  destruct (stream_failure (docs_iter (dataset self))) as [e|] eqn:Hd.
  { by rewrite (list_comp_fail _ _ _ Hd). }
  by destruct Hnot.
Qed.

Lemma streams_ok_or_not (self : TRECDLAdapter) :
  streams_ok self ∨ ¬ streams_ok self.
Proof.
  unfold streams_ok.
  destruct (stream_failure (qrels_iter _)), (stream_failure (queries_iter _)),
    (stream_failure (docs_iter _)); first [by left | right; by intros (?&?&?)].
Qed.

Lemma closed_empty_result : closed empty_result.
Proof. unfold closed; simpl. repeat split; intros ? H; by apply elem_of_nil in H. Qed.

Lemma filter_sublist_mono {A} (P Q : A → Prop)
    `{!∀ x, Decision (P x)} `{!∀ x, Decision (Q x)} (l : list A) :
  (∀ x, P x → Q x) → filter P l `sublist_of` filter Q l.
Proof.
  intros HPQ. induction l as [|x l IH]; [done|].
  rewrite !filter_cons. destruct (decide (P x)) as [HP|HP].
  - rewrite decide_True by auto. by apply sublist_skip.
  - destruct (decide (Q x)); [by apply sublist_cons|done].
Qed.

Lemma selected_positive (l : list Query) (k : Z) :
  (0 < k)%Z → selected (Some k) l = take (Z.to_nat k) l.
Proof.
  intros Hk. unfold selected, slice_to, truthy.
  destruct (Z.eqb_spec k 0); [lia|]. simpl.
  destruct (Z.ltb_spec k 0); [lia|]. done.
Qed.

Lemma selected_prefix (limit : option Z) (l : list Query) :
  selected limit l `prefix_of` l.
Proof.
  unfold selected, slice_to. destruct (truthy limit); [|done].
  destruct limit as [k|]; [|done].
  destruct (k <? 0)%Z; apply prefix_take.
Qed.

Lemma selected_sublist (limit : option Z) (l : list Query) :
  selected limit l `sublist_of` l.
Proof.
  unfold selected, slice_to. destruct (truthy limit); [|done].
  destruct limit as [k|]; [|done].
  destruct (k <? 0)%Z; apply sublist_take.
Qed.

(** X6: for every limit (absent, zero, positive of any size, negative),
    when no stream fails the returned queries are a prefix of the judged
    queries, the returned judgments are exactly the registry judgments of the
    returned queries, and the returned documents are exactly the registry
    documents these judgments reference. *)
Theorem load_any_limit (self : TRECDLAdapter) (limit : option Z) :
  streams_ok self →
  ∃ res, load self limit = Ok res ∧
    queries res `prefix_of` judged self ∧
    qrels res = judgments_of (registry_qrels self) (queries res) ∧
    docs res = documents_of (registry_docs self) (qrels res).
Proof.
  intros Hok. eexists. split; [apply (load_streams_ok self limit Hok)|].
  simpl. split; [apply selected_prefix|done].
Qed.

Lemma load_any_limit_witness :
  ∃ res, load fixture (Some 7%Z) = Ok res ∧
    queries res `prefix_of` [q1; q3] ∧
    qrels res = judgments_of [r11; r33] (queries res) ∧
    docs res = documents_of [d1; d2; d3] (qrels res).
Proof. exact (load_any_limit fixture (Some 7%Z) streams_ok_fixture). Defined.

Lemma load_result_closed (self : TRECDLAdapter) (limit : option Z)
    (res : Loaded) :
  load self limit = Ok res → closed res.
Proof.
  destruct (streams_ok_or_not self) as [Hok|Hnot].
  - rewrite (load_streams_ok self limit Hok). intros [= <-].
    apply (restriction_closed (registry_queries self)), selected_subseteq.
  - rewrite (load_failed self limit Hnot). intros [= <-].
    apply closed_empty_result.
Qed.

(** X7: whatever [load] returns, for any limit and whether or not a stream
    failed, has no orphan: every returned query has a returned judgment,
    every returned judgment a returned query, every returned document a
    returned judgment. *)
Theorem load_always_closed (self : TRECDLAdapter) (limit : option Z)
    (res : Loaded) :
  load self limit = Ok res → closed res.
Proof. apply load_result_closed. Qed.

Lemma load_always_closed_witness : closed (mkLoaded [d1] [q1] [r11]).
Proof.
  apply (load_always_closed fixture (Some (-1)%Z)). vm_compute. reflexivity.
Defined.

(** X8: [load] neither invents nor reorders records: for any limit, each of
    the three returned lists is a sublist of what the corresponding registry
    stream yields. *)
Theorem load_sublists (self : TRECDLAdapter) (limit : option Z) (res : Loaded) :
  load self limit = Ok res →
  queries res `sublist_of` registry_queries self ∧
  qrels res `sublist_of` registry_qrels self ∧
  docs res `sublist_of` registry_docs self.
Proof.
  destruct (streams_ok_or_not self) as [Hok|Hnot].
  - rewrite (load_streams_ok self limit Hok). intros [= <-]. simpl.
    split; [|split]; try apply sublist_filter.
    etrans; [apply selected_sublist|apply sublist_filter].
  - rewrite (load_failed self limit Hnot). intros [= <-]. simpl.
    repeat split; apply sublist_nil_l.
Qed.

Lemma load_sublists_witness :
  [q1] `sublist_of` registry_queries fixture ∧
  [r11] `sublist_of` registry_qrels fixture ∧
  [d1] `sublist_of` registry_docs fixture.
Proof.
  apply (load_sublists fixture (Some 1%Z) (mkLoaded [d1] [q1] [r11])).
  vm_compute. reflexivity.
Defined.

(** X9: a limit at least as large as the number of judged queries changes
    nothing: [load] returns what it returns without a limit. *)
Theorem load_limit_large (self : TRECDLAdapter) (k : Z) :
  (Z.of_nat (length (judged self)) ≤ k)%Z →
  load self (Some k) = load self None.
Proof.
  intros Hk. destruct (streams_ok_or_not self) as [Hok|Hnot].
  - rewrite (load_streams_ok self (Some k) Hok), (load_streams_ok self None Hok).
    assert (selected (Some k) (judged self) = selected None (judged self)) as ->;
      [|done].
    unfold selected at 2. simpl.
    destruct (decide (k = 0%Z)) as [->|Hne]; [done|].
    rewrite selected_positive by lia. apply take_ge. lia.
  - by rewrite !(load_failed self _ Hnot).
Qed.

Lemma load_limit_large_witness : load fixture (Some 2%Z) = load fixture None.
Proof. apply (load_limit_large fixture 2). vm_compute. discriminate. Defined.

(** X10: a positive limit caps the number of returned queries, whatever the
    registry streams do. *)
Theorem load_limit_caps_queries (self : TRECDLAdapter) (k : Z) (res : Loaded) :
  (0 < k)%Z →
  load self (Some k) = Ok res →
  (Z.of_nat (length (queries res)) ≤ k)%Z.
Proof.
  intros Hk. destruct (streams_ok_or_not self) as [Hok|Hnot].
  - rewrite (load_streams_ok self (Some k) Hok). intros [= <-]. simpl.
    rewrite selected_positive, length_take by done. lia.
  - rewrite (load_failed self _ Hnot). intros [= <-]. simpl. lia.
Qed.

Lemma load_limit_caps_queries_witness :
  (Z.of_nat (length [q1]) ≤ 1)%Z.
Proof.
  apply (load_limit_caps_queries fixture 1 (mkLoaded [d1] [q1] [r11])).
  - lia.
  - vm_compute. reflexivity.
Defined.

(** X11: raising a positive limit only adds to the result: the queries
    returned for the smaller limit are a prefix of those returned for the
    larger one, and the judgments and documents sublists. *)
Theorem load_limit_monotone (self : TRECDLAdapter) (k k' : Z)
    (res res' : Loaded) :
  (0 < k ≤ k')%Z →
  load self (Some k) = Ok res →
  load self (Some k') = Ok res' →
  queries res `prefix_of` queries res' ∧
  qrels res `sublist_of` qrels res' ∧
  docs res `sublist_of` docs res'.
Proof.
  intros Hk. destruct (streams_ok_or_not self) as [Hok|Hnot].
  - rewrite (load_streams_ok self (Some k) Hok),
      (load_streams_ok self (Some k') Hok).
    intros [= <-] [= <-]. simpl.
    rewrite !selected_positive by lia.
    set (l := judged self).
    assert (take (Z.to_nat k) l `prefix_of` take (Z.to_nat k') l) as Hpre.
    { replace (take (Z.to_nat k) l)
        with (take (Z.to_nat k) (take (Z.to_nat k') l))
        by (rewrite take_take; f_equal; lia).
      apply prefix_take. }
    assert (judgments_of (registry_qrels self) (take (Z.to_nat k) l)
            `sublist_of`
            judgments_of (registry_qrels self) (take (Z.to_nat k') l)) as Hrs.
    { apply filter_sublist_mono. intros r.
      destruct Hpre as [suffix ->]. rewrite fmap_app, elem_of_app. auto. }
    split; [done|]. split; [done|].
    apply filter_sublist_mono. intros d Hin.
    apply list_elem_of_fmap in Hin as (r & -> & Hin).
    apply list_elem_of_fmap. exists r. split; [done|].
    by apply (sublist_subseteq _ _ Hrs).
  - rewrite !(load_failed self _ Hnot). intros [= <-] [= <-]. simpl.
    repeat split; [done|apply sublist_nil_l..].
Qed.

Lemma load_limit_monotone_witness :
  [q1] `prefix_of` [q1; q3] ∧
  [r11] `sublist_of` [r11; r33] ∧
  [d1] `sublist_of` [d1; d3].
Proof.
  apply (load_limit_monotone fixture 1 2
           (mkLoaded [d1] [q1] [r11]) (mkLoaded [d1; d3] [q1; q3] [r11; r33])).
  - lia.
  - vm_compute. reflexivity.
  - vm_compute. reflexivity.
Defined.

Lemma filter_Forall_id {A} (P : A → Prop) `{!∀ x, Decision (P x)} (l : list A) :
  (∀ x, x ∈ l → P x) → filter P l = l.
Proof.
  induction l as [|x l IH]; intros HP; [done|].
  rewrite filter_cons, decide_True by (apply HP; left).
  f_equal. apply IH. intros y Hy. apply HP. by right.
Qed.

Lemma load_closed_fixpoint (self : TRECDLAdapter) (res : Loaded) :
  closed res → load (with_dataset self (dataset_of res)) None = Ok res.
Proof.
  intros (Hq & Hr & Hd).
  assert (streams_ok (with_dataset self (dataset_of res))) as Hok.
  { unfold streams_ok; simpl. by rewrite !stream_failure_of_list. }
  rewrite (load_streams_ok _ None Hok).
  unfold selected, judged, registry_queries, registry_qrels, registry_docs.
  simpl. rewrite !stream_items_of_list.
  assert (judged_queries (queries res) (qrels res) = queries res) as ->.
  { apply filter_Forall_id. intros q Hin. destruct (Hq q Hin) as (r & ? & <-).
    apply list_elem_of_fmap. eauto. }
  assert (judgments_of (qrels res) (queries res) = qrels res) as ->.
  { apply filter_Forall_id. intros r Hin. destruct (Hr r Hin) as (q & ? & <-).
    apply list_elem_of_fmap. eauto. }
  assert (documents_of (docs res) (qrels res) = docs res) as ->.
  { apply filter_Forall_id. intros d Hin. destruct (Hd d Hin) as (r & ? & <-).
    apply list_elem_of_fmap. eauto. }
  by destruct res.
Qed.

(** X12: loading is idempotent: a registry that holds exactly the records
    some [load] returned gives them all back, unchanged and in the same
    order, when loaded without a limit. *)
Theorem load_idempotent (self : TRECDLAdapter) (limit : option Z) (res : Loaded) :
  load self limit = Ok res →
  load (with_dataset self (dataset_of res)) None = Ok res.
Proof. intros Hload. by eapply load_closed_fixpoint, load_result_closed. Qed.

Lemma load_idempotent_witness :
  load (with_dataset fixture (dataset_of (mkLoaded [d1] [q1] [r11]))) None
  = Ok (mkLoaded [d1] [q1] [r11]).
Proof.
  apply (load_idempotent fixture (Some 1%Z)). vm_compute. reflexivity.
Defined.

(** * Further properties of the lazy iterators *)

(** X13: without a limit, and with limit 0, each iterator passes its
    registry stream on unchanged: every record in order, and the stream's
    failure, if it has one, at the same place. *)
Theorem iter_no_limit (self : TRECDLAdapter) (limit : option Z) :
  limit = None ∨ limit = Some 0%Z →
  iter_docs self limit = docs_iter (dataset self) ∧
  iter_queries self limit = queries_iter (dataset self) ∧
  iter_qrels self limit = qrels_iter (dataset self).
Proof.
  intros Hl. assert (truthy limit = false) as Hf by (by destruct Hl as [->| ->]).
  unfold iter_docs, iter_queries, iter_qrels.
  by rewrite !iter_loop_no_limit.
Qed.

Lemma iter_no_limit_witness :
  iter_docs late_failure (Some 0%Z)
  = SCons d1 (SCons d2 (SFail (OSError "connection reset"))).
Proof. apply (iter_no_limit late_failure (Some 0%Z)). by right. Defined.

(** With a non-zero limit [k] the loop runs [max 1 (k - count)] more times:
    the break test comes after the yield. *)
Lemma iter_loop_items {A} (s : stream A) (k count : Z) :
  k ≠ 0%Z →
  stream_items (iter_loop (Some k) count s)
  = take (Z.to_nat (Z.max 1 (k - count))) (stream_items s).
Proof.
  intros Hk. revert count. induction s as [|x s IH|e]; intros count; simpl.
  - by rewrite take_nil.
  - replace (Z.to_nat (Z.max 1 (k - count)))
      with (S (Z.to_nat (Z.max 1 (k - count)) - 1)) by lia.
    simpl. f_equal. destruct (Z.eqb_spec k 0); [done|]. simpl.
    destruct (Z.leb_spec k (count + 1)); simpl.
    + replace (Z.to_nat (Z.max 1 (k - count)) - 1) with 0 by lia.
      by rewrite take_0.
    + rewrite IH. f_equal. lia.
  - by rewrite take_nil.
Qed.

Lemma iter_loop_failure {A} (s : stream A) (k count : Z) :
  k ≠ 0%Z →
  stream_failure (iter_loop (Some k) count s)
  = if decide (Z.max 1 (k - count) ≤ Z.of_nat (length (stream_items s)))%Z
    then None else stream_failure s.
Proof.
  intros Hk. revert count. induction s as [|x s IH|e]; intros count; simpl.
  - case_decide; [lia|done].
  - destruct (Z.eqb_spec k 0); [done|]. simpl.
    destruct (Z.leb_spec k (count + 1)); simpl.
    + case_decide; [done|lia].
    + rewrite IH. repeat case_decide; first [done|lia].
  - case_decide; [lia|done].
Qed.

(** X14: with a non-zero limit k, each iterator yields the first
    max(1, k) records of its stream, or all of them when there are fewer;
    and it fails exactly when the stream fails before having yielded that
    many, so that a failure further on is never met. *)
Theorem iter_limit_general (self : TRECDLAdapter) (k : Z) :
  k ≠ 0%Z →
  let n := Z.max 1 k in
  (stream_items (iter_docs self (Some k))
   = take (Z.to_nat n) (registry_docs self) ∧
   stream_failure (iter_docs self (Some k))
   = if decide (n ≤ Z.of_nat (length (registry_docs self)))%Z
     then None else stream_failure (docs_iter (dataset self))) ∧
  (stream_items (iter_queries self (Some k))
   = take (Z.to_nat n) (registry_queries self) ∧
   stream_failure (iter_queries self (Some k))
   = if decide (n ≤ Z.of_nat (length (registry_queries self)))%Z
     then None else stream_failure (queries_iter (dataset self))) ∧
  (stream_items (iter_qrels self (Some k))
   = take (Z.to_nat n) (registry_qrels self) ∧
   stream_failure (iter_qrels self (Some k))
   = if decide (n ≤ Z.of_nat (length (registry_qrels self)))%Z
     then None else stream_failure (qrels_iter (dataset self))).
Proof.
  intros Hk n. unfold iter_docs, iter_queries, iter_qrels.
  rewrite !iter_loop_items, !iter_loop_failure by done.
  rewrite Z.sub_0_r. done.
Qed.

(** The document stream breaks after two records: with limit 2 the break is
    never met, with limit 3 it is. *)
Lemma iter_limit_general_witness :
  iter_docs late_failure (Some 2%Z) = stream_of_list [d1; d2] ∧
  stream_failure (iter_docs late_failure (Some 3%Z))
  = Some (OSError "connection reset").
Proof.
  split.
  - vm_compute. reflexivity.
  - refine (eq_trans
      (proj2 (proj1 (iter_limit_general late_failure 3 _))) _).
    + discriminate.
    + vm_compute. reflexivity.
Defined.

(** X15: a negative limit does not disable the cap: each iterator yields
    the first record of its stream and stops. *)
Theorem iter_negative_limit (self : TRECDLAdapter) (k : Z) :
  (k < 0)%Z →
  (∀ x s, docs_iter (dataset self) = SCons x s →
          iter_docs self (Some k) = SCons x SNil) ∧
  (∀ x s, queries_iter (dataset self) = SCons x s →
          iter_queries self (Some k) = SCons x SNil) ∧
  (∀ x s, qrels_iter (dataset self) = SCons x s →
          iter_qrels self (Some k) = SCons x SNil).
Proof.
  intros Hk. unfold iter_docs, iter_queries, iter_qrels.
  repeat split; intros x s ->; simpl.
  all: destruct (Z.eqb_spec k 0); [lia|]; simpl.
  all: destruct (Z.leb_spec k (0 + 1)); [done|lia].
Qed.

Lemma iter_negative_limit_witness :
  iter_docs fixture (Some (-3)%Z) = SCons d1 SNil.
Proof.
  apply (proj1 (iter_negative_limit fixture (-3) eq_refl) d1
           (stream_of_list [d2; d3])).
  reflexivity.
Defined.

(** * Further properties of the tabular flattening *)

Lemma as_dict_lookup (res : Loaded) :
  as_dict res !! "docs" = Some (RDoc <$> docs res) ∧
  as_dict res !! "queries" = Some (RQuery <$> queries res) ∧
  as_dict res !! "qrels" = Some (RQrel <$> qrels res).
Proof.
  unfold as_dict. split; [|split]; reflexivity.
Qed.

(** The table of a dict of documents, queries and judgments. *)
Lemma trec_df_typed (data : gmap string (list record))
    (ds : list Doc) (qs : list Query) (rs : list Qrel) :
  data !! "docs" = Some (RDoc <$> ds) →
  data !! "queries" = Some (RQuery <$> qs) →
  data !! "qrels" = Some (RQrel <$> rs) →
  trec_df data
  = Ok (mkDataFrame ["qid"; "query"; "docid"; "passage"; "rel"]
          (omap (spec_row qs ds) rs)).
Proof.
  intros Hd Hq Hr. unfold trec_df, getitem. simpl.
  rewrite Hd, Hq, Hr. simpl.
  destruct (text_lookup_typed RDoc attr_doc_id doc_id doc_text
              (λ _, eq_refl) (λ _, eq_refl) ds ∅) as (dl & -> & Hdl).
  simpl.
  destruct (text_lookup_typed RQuery attr_query_id query_id query_text
              (λ _, eq_refl) (λ _, eq_refl) qs ∅) as (ql & -> & Hql).
  simpl. rewrite rows_loop_typed. simpl. do 2 f_equal.
  apply list_omap_ext, Forall_Forall2_diag, Forall_forall.
  intros r _. apply loop_row_spec.
  - intros k. rewrite Hql, lookup_empty. by destruct (lookup_text _ _ _ _).
  - intros k. rewrite Hdl, lookup_empty. by destruct (lookup_text _ _ _ _).
Qed.

(** What the loop over the judgments adds to [rows], on any records. *)
Lemma rows_loop_invariant (query_lookup doc_lookup : gmap string string)
    (l : list record) (rows rows' : list Row) :
  rows_loop query_lookup doc_lookup l rows = Ok rows' →
  ∃ new, rows' = rows ++ new ∧ (length new ≤ length l)%nat ∧
    ∀ qid query docid passage rel,
      (qid, query, docid, passage, rel) ∈ new →
      query ≠ "" ∧ passage ≠ "" ∧
      query_lookup !! qid = Some query ∧ doc_lookup !! docid = Some passage ∧
      ∃ x, x ∈ l ∧ attr_query_id x = Ok qid ∧ attr_doc_id x = Ok docid ∧
           rel = getattr_relevance x.
Proof.
  revert rows. induction l as [|x l IH]; intros rows; simpl.
  - intros [= <-]. exists []. rewrite app_nil_r. split; [done|].
    split; [done|]. intros ????? Hin. by apply elem_of_nil in Hin.
  - destruct (attr_query_id x) as [qid|] eqn:Hq; [|done].
    destruct (attr_doc_id x) as [docid|] eqn:Hd; [|done]. simpl.
    intros Hloop. apply IH in Hloop as (new & -> & Hlen & Hnew).
    assert (∀ qid' query docid' passage rel,
      (qid', query, docid', passage, rel) ∈ new →
      query ≠ "" ∧ passage ≠ "" ∧
      query_lookup !! qid' = Some query ∧ doc_lookup !! docid' = Some passage ∧
      ∃ y, y ∈ x :: l ∧ attr_query_id y = Ok qid' ∧ attr_doc_id y = Ok docid' ∧
           rel = getattr_relevance y) as Hnew'.
    { intros ????? Hin.
      destruct (Hnew _ _ _ _ _ Hin) as (? & ? & ? & ? & y & ? & ?).
      repeat split; try done. exists y. split; [by right|done]. }
    destruct (truthy_text (query_lookup !! qid)
              && truthy_text (doc_lookup !! docid)) eqn:Htruthy.
    + apply andb_true_iff in Htruthy as [Hquery Hpassage].
      destruct (query_lookup !! qid) as [query|] eqn:Hql; [|done].
      destruct (doc_lookup !! docid) as [passage|] eqn:Hdl; [|done].
      simpl in *. exists ((qid, query, docid, passage, getattr_relevance x) :: new).
      split; [by rewrite <- app_assoc|]. split; [simpl; lia|].
      intros ????? Hin. apply elem_of_cons in Hin as [[= -> -> -> -> ->]|Hin].
      * repeat split; try done.
        -- intros ->. by rewrite bool_decide_eq_true_2 in Hquery.
        -- intros ->. by rewrite bool_decide_eq_true_2 in Hpassage.
        -- exists x. split; [by left|done].
      * by apply Hnew'.
    + exists new. split; [done|]. split; [lia|]. done.
Qed.

(** X16: every table [trec_df] returns has the five columns qid, query,
    docid, passage, rel, at most one row per judgment, and in every row a
    non-empty query text and a non-empty passage text, with ids and
    relevance taken from one of the judgments. *)
Theorem trec_df_table_invariant (data : gmap string (list record))
    (df : DataFrame) :
  trec_df data = Ok df →
  df_columns df = ["qid"; "query"; "docid"; "passage"; "rel"] ∧
  (length (df_rows df) ≤ length (default [] (data !! "qrels")))%nat ∧
  ∀ qid query docid passage rel,
    (qid, query, docid, passage, rel) ∈ df_rows df →
    query ≠ "" ∧ passage ≠ "" ∧
    ∃ x, x ∈ default [] (data !! "qrels") ∧
         attr_query_id x = Ok qid ∧ attr_doc_id x = Ok docid ∧
         rel = getattr_relevance x.
Proof.
  unfold trec_df, getitem.
  destruct (negb _); [done|].
  destruct (data !! "docs") as [vd|]; [|done]. simpl.
  destruct (text_lookup attr_doc_id vd ∅) as [dl|]; [|done]. simpl.
  destruct (data !! "queries") as [vq|]; [|done]. simpl.
  destruct (text_lookup attr_query_id vq ∅) as [ql|]; [|done]. simpl.
  destruct (data !! "qrels") as [vr|]; [|done]. simpl.
  destruct (rows_loop ql dl vr []) as [rows|] eqn:Hrows; [|done]. simpl.
  intros [= <-]. simpl.
  apply rows_loop_invariant in Hrows as (new & -> & Hlen & Hnew). simpl.
  split; [done|]. split; [done|].
  intros ????? Hin. destruct (Hnew _ _ _ _ _ Hin) as (? & ? & _ & _ & ?). done.
Qed.

Lemma trec_df_table_invariant_witness :
  (length [("q1", "what is x", "d1", "x is a thing", 0%Z)] ≤ 4)%nat.
Proof.
  refine (proj1 (proj2 (trec_df_table_invariant sparse_data
    (mkDataFrame ["qid"; "query"; "docid"; "passage"; "rel"]
       [("q1", "what is x", "d1", "x is a thing", 0%Z)]) _))).
  vm_compute. reflexivity.
Defined.

(** X17: keys other than "docs", "queries" and "qrels" play no part: adding
    or replacing one changes neither the table nor the error. *)
Theorem trec_df_ignores_other_keys (data : gmap string (list record))
    (k : string) (v : list record) :
  k ∉ required_keys →
  trec_df (<[k := v]> data) = trec_df data.
Proof.
  unfold required_keys. rewrite !not_elem_of_cons. intros (Hd & Hq & Hr & _).
  unfold trec_df, getitem. simpl. by rewrite !lookup_insert_ne.
Qed.

Lemma trec_df_ignores_other_keys_witness :
  trec_df (<["qids" := [RQuery q2]]> one_row_data) = trec_df one_row_data.
Proof.
  apply (trec_df_ignores_other_keys one_row_data "qids" [RQuery q2]).
  by apply (bool_decide_eq_false_1 ("qids" ∈ required_keys)).
Defined.

Lemma attr_doc_id_Ok (x : record) :
  (∃ k, attr_doc_id x = Ok k) ↔ has_doc_id x.
Proof. destruct x; simpl; split; try done; eauto; by intros [? ?]. Qed.

Lemma attr_query_id_Ok (x : record) :
  (∃ k, attr_query_id x = Ok k) ↔ has_query_id x.
Proof. destruct x; simpl; split; try done; eauto; by intros [? ?]. Qed.

Lemma text_lookup_Ok_iff (key : record → M string) (l : list record)
    (acc : gmap string string) :
  (∃ m, text_lookup key l acc = Ok m) ↔ Forall (λ x, ∃ k, key x = Ok k) l.
Proof.
  revert acc. induction l as [|x l IH]; intros acc; simpl.
  - split; [by constructor|eauto].
  - rewrite Forall_cons. destruct (key x) as [k|e]; simpl.
    + rewrite IH. split; [eauto|tauto].
    + split; [by intros [? ?]|by intros [[? ?] _]].
Qed.

Lemma rows_loop_Ok_iff (query_lookup doc_lookup : gmap string string)
    (l : list record) (rows : list Row) :
  (∃ rows', rows_loop query_lookup doc_lookup l rows = Ok rows')
  ↔ Forall (λ x, has_query_id x ∧ has_doc_id x) l.
Proof.
  revert rows. induction l as [|x l IH]; intros rows; simpl.
  - split; [by constructor|eauto].
  - rewrite Forall_cons, <- attr_query_id_Ok, <- attr_doc_id_Ok.
    destruct (attr_query_id x) as [qid|e]; simpl;
      [|split; [by intros [? ?]|by intros [[[? ?] _] _]]].
    destruct (attr_doc_id x) as [docid|e]; simpl;
      [|split; [by intros [? ?]|by intros [[_ [? ?]] _]]].
    rewrite IH. split; [eauto|tauto].
Qed.

(** X18: [trec_df] returns a table exactly when its input has the three
    lists, every record under "docs" has a [doc_id], every record under
    "queries" a [query_id], and every record under "qrels" both. Missing
    texts, missing relevance and ids that match nothing never make it fail. *)
Theorem trec_df_Ok_iff (data : gmap string (list record)) :
  (∃ df, trec_df data = Ok df) ↔
  ∃ vd vq vr,
    data !! "docs" = Some vd ∧ data !! "queries" = Some vq ∧
    data !! "qrels" = Some vr ∧
    Forall (λ x, has_doc_id x) vd ∧
    Forall (λ x, has_query_id x) vq ∧
    Forall (λ x, has_query_id x ∧ has_doc_id x) vr.
Proof.
  unfold trec_df, getitem. simpl.
  destruct (data !! "docs") as [vd|]; simpl;
    [|split; [by intros [? ?]|by intros (?&?&?&?&_)]].
  destruct (data !! "queries") as [vq|]; simpl;
    [|split; [by intros [? ?]|by intros (?&?&?&_&?&_)]].
  destruct (data !! "qrels") as [vr|]; simpl;
    [|split; [by intros [? ?]|by intros (?&?&?&_&_&?&_)]].
  pose proof (text_lookup_Ok_iff attr_doc_id vd ∅) as Hd.
  pose proof (text_lookup_Ok_iff attr_query_id vq ∅) as Hq.
  setoid_rewrite attr_doc_id_Ok in Hd. setoid_rewrite attr_query_id_Ok in Hq.
  split.
  - intros [df Hdf]. exists vd, vq, vr.
    destruct (text_lookup attr_doc_id vd ∅) as [dl|]; [|done]. simpl in Hdf.
    destruct (text_lookup attr_query_id vq ∅) as [ql|]; [|done]. simpl in Hdf.
    destruct (rows_loop ql dl vr []) as [rows|] eqn:Hrows; [|done].
    repeat split; try done.
    + apply Hd. eauto.
    + apply Hq. eauto.
    + apply (rows_loop_Ok_iff ql dl vr []). eauto.
  - intros (? & ? & ? & [= <-] & [= <-] & [= <-] & Hvd & Hvq & Hvr).
    apply Hd in Hvd as [dl ->]. apply Hq in Hvq as [ql ->]. simpl.
    apply (rows_loop_Ok_iff ql dl vr []) in Hvr as [rows ->]. simpl. eauto.
Qed.

Lemma trec_df_Ok_iff_witness :
  ¬ ∃ df, trec_df (<["docs" := [RQuery q1]]> one_row_data) = Ok df.
Proof.
  intros Hdf.
  apply (proj1 (trec_df_Ok_iff (<["docs" := [RQuery q1]]> one_row_data))) in Hdf
    as (vd & vq & vr & Hvd & _ & _ & Hall & _).
  vm_compute in Hvd. injection Hvd as <-.
  apply Forall_cons in Hall as [Hq1 _]. exact Hq1.
Defined.

(** X19: [load] followed by [trec_df] never raises: for every registry,
    failing or not, and every limit, the dict [load] returns is accepted by
    [trec_df], whose rows are those of the returned judgments looked up in
    the returned queries and documents. *)
Theorem load_then_trec_df (self : TRECDLAdapter) (limit : option Z) :
  ∃ res, load self limit = Ok res ∧
    trec_df (as_dict res)
    = Ok (mkDataFrame ["qid"; "query"; "docid"; "passage"; "rel"]
            (omap (spec_row (queries res) (docs res)) (qrels res))).
Proof.
  assert (∃ res, load self limit = Ok res) as [res Hres].
  { destruct (streams_ok_or_not self) as [Hok|Hnot].
    - rewrite (load_streams_ok self limit Hok). eauto.
    - rewrite (load_failed self limit Hnot). eauto. }
  exists res. split; [done|].
  destruct (as_dict_lookup res) as (Hd & Hq & Hr).
  by apply trec_df_typed.
Qed.

Lemma omap_cons_eq {A B} (f : A → option B) (x : A) (l : list A) :
  omap f (x :: l)
  = match f x with Some y => y :: omap f l | None => omap f l end.
Proof. reflexivity. Qed.

Lemma omap_filter_None {A B} (f : A → option B) (P : A → Prop)
    `{!∀ x, Decision (P x)} (l : list A) :
  (∀ x, x ∈ l → ¬ P x → f x = None) → omap f (filter P l) = omap f l.
Proof.
  induction l as [|x l IH]; intros Hf; [done|].
  assert (omap f (filter P l) = omap f l) as IH'.
  { apply IH. intros y Hy. apply Hf. by right. }
  rewrite filter_cons, (omap_cons_eq f x l).
  destruct (decide (P x)) as [HP|HP].
  - by rewrite omap_cons_eq, IH'.
  - rewrite (Hf x); [done|by left|done].
Qed.

Lemma omap_ext_in {A B} (f g : A → option B) (l : list A) :
  (∀ x, x ∈ l → f x = g x) → omap f l = omap g l.
Proof.
  induction l as [|x l IH]; intros Hfg; [done|].
  rewrite !omap_cons_eq, (Hfg x) by by left. rewrite IH; [done|].
  intros y Hy. apply Hfg. by right.
Qed.

(** Restricting the records to a set of keys that contains [k] does not
    change what is found under [k]. *)
Lemma lookup_text_filter {A} (key : A → string) (text : A → option string)
    (P : A → Prop) `{!∀ x, Decision (P x)} (l : list A) (k : string) :
  (∀ x, key x = k → P x) →
  lookup_text key text (filter P l) k = lookup_text key text l k.
Proof.
  intros HP. unfold lookup_text. f_equal. f_equal.
  rewrite list_filter_filter. apply list_filter_iff.
  intros x. split; [by intros [? _]|intros ?; split; auto].
Qed.

Lemma lookup_text_None {A} (key : A → string) (text : A → option string)
    (l : list A) (k : string) :
  k ∉ key <$> l → lookup_text key text l k = None.
Proof.
  intros Hk. unfold lookup_text.
  assert (filter (λ x, key x = k) l = []) as ->; [|done].
  induction l as [|x l IH]; [done|].
  rewrite fmap_cons, not_elem_of_cons in Hk. destruct Hk as [Hne Hk].
  rewrite filter_cons, decide_False by done. by apply IH.
Qed.

(** X20: the filtering done by [load] loses no row: when no stream fails,
    the table of what [load] returns without a limit is the table of the
    whole registry. *)
Theorem trec_df_load_is_trec_df_registry (self : TRECDLAdapter) (res : Loaded) :
  streams_ok self →
  load self None = Ok res →
  trec_df (as_dict res) = trec_df (registry_data self).
Proof.
  intros Hok. rewrite (load_streams_ok self None Hok). intros [= <-].
  set (qs := registry_queries self). set (rs := registry_qrels self).
  set (ds := registry_docs self).
  unfold selected; simpl. fold qs rs. unfold judged. fold qs rs.
  set (sel := judged_queries qs rs). set (rs' := judgments_of rs sel).
  destruct (as_dict_lookup (mkLoaded (documents_of ds rs') sel rs'))
    as (Hd & Hq & Hr).
  destruct (as_dict_lookup (mkLoaded ds qs rs)) as (Hd' & Hq' & Hr').
  rewrite (trec_df_typed _ _ _ _ Hd Hq Hr). unfold registry_data. fold qs rs ds.
  rewrite (trec_df_typed _ _ _ _ Hd' Hq' Hr'). simpl. do 2 f_equal.
  assert (∀ r, r ∈ rs → ∀ q, query_id q = qrel_query_id r →
               query_id q ∈ qrel_query_id <$> rs) as Hjudged.
  { intros r Hr0 q ->. apply list_elem_of_fmap. eauto. }
  transitivity (omap (spec_row qs ds) rs').
  - apply omap_ext_in. intros r Hin. unfold spec_row.
    assert (r ∈ rs) as Hrs by (by apply list_elem_of_filter in Hin as [_ ?]).
    unfold sel, judged_queries. rewrite lookup_text_filter by eauto.
    unfold documents_of. rewrite lookup_text_filter; [done|].
    intros d ->. apply list_elem_of_fmap. eauto.
  - unfold rs', judgments_of. apply omap_filter_None.
    intros r Hin Hnot. unfold spec_row.
    rewrite (lookup_text_None query_id query_text qs); [done|].
    intros Hq0. apply Hnot.
    apply list_elem_of_fmap in Hq0 as (q & Hid & Hq0).
    apply list_elem_of_fmap. exists q. split; [done|].
    apply list_elem_of_filter. split; [|done]. eauto.
Qed.

Lemma trec_df_load_is_trec_df_registry_witness :
  trec_df (as_dict (mkLoaded [d1; d3] [q1; q3] [r11; r33]))
  = trec_df (registry_data fixture).
Proof.
  apply (trec_df_load_is_trec_df_registry fixture _ streams_ok_fixture).
  vm_compute. reflexivity.
Defined.

(** * The first definition's load *)

Lemma list_of_stream_ok {A} (s : stream A) :
  stream_failure s = None → Shadowed.list_of_stream s = Ok (stream_items s).
Proof.
  induction s as [|x s IH|e]; intros Hs; simpl in *; [done| |done].
  by rewrite (IH Hs).
Qed.

(** A failure is met only if it lies within the first [n] records. *)
Lemma zip_range_ok {A} (n : nat) (s : stream A) :
  (n ≤ length (stream_items s))%nat ∨ stream_failure s = None →
  Shadowed.zip_range n s = Ok (take n (stream_items s)).
Proof.
  revert s. induction n as [|n IH]; intros s Hs; [by destruct s|].
  destruct s as [|x s|e]; simpl in *.
  - done.
  - rewrite IH; [done|]. destruct Hs; [left; lia|by right].
  - destruct Hs; [lia|done].
Qed.

Lemma first_records_ok {A} (limit : option Z) (s : stream A) :
  no_failure_within limit s →
  Shadowed.first_records limit s = Ok (first_n limit (stream_items s)).
Proof.
  unfold Shadowed.first_records, first_n.
  intros [Hs|(k & -> & Hlen)].
  - destruct limit; [apply zip_range_ok; by right|by apply list_of_stream_ok].
  - apply zip_range_ok. by left.
Qed.

(** X21: the [load] of the class's first definition applies the limit to
    the registry streams themselves: it returns the first [limit] documents,
    queries and judgments (all of them without a limit, none for a limit of 0
    or below), unfiltered, provided no stream fails within the records that
    are read. *)
Theorem shadowed_load_first_records (self : TRECDLAdapter) (limit : option Z) :
  no_failure_within limit (docs_iter (dataset self)) →
  no_failure_within limit (queries_iter (dataset self)) →
  no_failure_within limit (qrels_iter (dataset self)) →
  Shadowed.load self limit
  = Ok (mkLoaded (first_n limit (registry_docs self))
          (first_n limit (registry_queries self))
          (first_n limit (registry_qrels self))).
Proof.
  intros Hd Hq Hr. unfold Shadowed.load.
  by rewrite (first_records_ok _ _ Hd), (first_records_ok _ _ Hq),
    (first_records_ok _ _ Hr).
Qed.

(** Two records of each stream, the unjudged [d2] and [q2] among them; the
    break of the document stream after its second record is not met. *)
Lemma shadowed_load_first_records_witness :
  Shadowed.load late_failure (Some 2%Z)
  = Ok (mkLoaded [d1; d2] [q2; q1] [r11; r33]).
Proof.
  apply (shadowed_load_first_records late_failure (Some 2%Z)).
  - right. exists 2%Z. split; [reflexivity|]. vm_compute. lia.
  - by left.
  - by left.
Defined.
